(** * nestjs-zero: the in-memory user service

    A shallow embedding of [src/user/user.service.ts] (class [UserService])
    together with the two DTO classes it consumes, and the properties of
    its create / findAll / findOne / update / remove methods.

    Numbers.  [currentId] and [User.id] are JavaScript numbers that only
    ever hold the integers 1, 2, 3, ... produced by [this.currentId++];
    the route parameter is an integer too ([ParseIntPipe]).  They are
    modelled as [Z]: integer arithmetic and [===] on such numbers are the
    arithmetic and equality of [Z] on the whole safe-integer range, and
    the counter is taken as unbounded beyond it.

    Objects.  Part 1 gives the service its value semantics: what a caller
    that only talks to the service through its five methods observes.
    Part 2 gives the same methods their reference semantics (objects
    live in a heap, the array holds references, every method returns a
    reference) and proves that Part 1 is what Part 2 shows through
    dereferencing. *)

From stdpp Require Import base numbers list sorting strings gmap.

Local Open Scope Z_scope.

(** ** Entities and DTOs *)

Module User.
(** Modelled from the spec: [src/user/entities/user.entity.ts] is not
    part of the sources; the entity is the plain interface with the
    three fields [id], [name], [email] that the service code reads and
    writes. *)
Record t : Type := mk { id : Z; name : string; email : string }.

#[global] Instance eq_dec : EqDecision t.
Proof. solve_decision. Defined.
End User.

Module CreateUserDto.
(** [class CreateUserDto { name: string; email: string; }] *)
Record t : Type := mk { name : string; email : string }.
End CreateUserDto.

Module UpdateUserDto.
(** [class UpdateUserDto extends PartialType(CreateUserDto)]: both
    properties are optional; [None] is a property that is absent from
    the object. *)
Record t : Type := mk { name : option string; email : option string }.
End UpdateUserDto.

(** ** Array primitives used by the service *)

Section Array.
Context {A : Type}.

(** [Array.prototype.findIndex]: the index of the first element that
    satisfies [p], scanning upwards from index [k]; [-1] when the scan
    reaches the end. *)
Fixpoint findIndex_from (p : A → bool) (k : Z) (xs : list A) : Z :=
  match xs with
  | [] => -1
  | x :: rest => if p x then k else findIndex_from p (k + 1) rest
  end.

Definition findIndex (p : A → bool) (xs : list A) : Z :=
  findIndex_from p 0 xs.

(** [Array.prototype.find]: the first element that satisfies [p];
    [None] stands for [undefined]. *)
Fixpoint find (p : A → bool) (xs : list A) : option A :=
  match xs with
  | [] => None
  | x :: rest => if p x then Some x else find p rest
  end.

(** [xs.push(x)] *)
Definition push (xs : list A) (x : A) : list A := xs ++ [x].

(** [xs.splice(start, deleteCount)] for [0 <= start]: the elements
    from [start] up to [start + deleteCount] are removed. *)
Definition splice (xs : list A) (start deleteCount : nat) : list A :=
  take start xs ++ drop (start + deleteCount) xs.

(** [xs[i] = x] for an index inside the array. *)
Definition assign (xs : list A) (i : nat) (x : A) : list A := <[i := x]> xs.

(** [x] sits at index [n] of [xs] and is the first element of [xs]
    that satisfies [p]. *)
Definition first_at (p : A → bool) (xs : list A) (n : nat) (x : A) : Prop :=
  xs !! n = Some x ∧ p x = true ∧ Forall (λ y, p y = false) (take n xs).
End Array.

(** ** Outcome of a method call *)

(** [new NotFoundException(`User with ID ${id} not found`)]: the
    exception is identified by the id interpolated into its message. *)
Inductive exception : Type :=
  | NotFoundException (id : Z).

Inductive outcome (A : Type) : Type :=
  | Return (a : A)
  | Throw (e : exception).
Arguments Return {A} a.
Arguments Throw {A} e.

(** ** Part 1: value semantics of [UserService] *)

Module UserService.

(** The two private fields. *)
Record t : Type := mk { users : list User.t; currentId : Z }.

(** [private users: User[] = []; private currentId = 1;] *)
Definition init : t := {| users := []; currentId := 1 |}.

(** A method takes the service state and gives its outcome and the
    state it leaves behind (also when it throws). *)
Definition method (A : Type) : Type := t → outcome A * t.

(** [(user) => user.id === id] *)
Definition has_id (id : Z) (user : User.t) : bool := User.id user =? id.

(** [{ ...user, ...updateUserDto }]: a property of the DTO overrides
    the property of the same name, absent ones leave it alone; the DTO
    has no [id]. *)
Definition merge (user : User.t) (updateUserDto : UpdateUserDto.t) : User.t :=
  {| User.id := User.id user;
     User.name := default (User.name user) (UpdateUserDto.name updateUserDto);
     User.email := default (User.email user) (UpdateUserDto.email updateUserDto) |}.

Definition create (createUserDto : CreateUserDto.t) : method User.t := λ s,
  let id := currentId s in
  let s := {| users := users s; currentId := currentId s + 1 |} in
  let newUser := {| User.id := id;
                    User.name := CreateUserDto.name createUserDto;
                    User.email := CreateUserDto.email createUserDto |} in
  let s := {| users := push (users s) newUser; currentId := currentId s |} in
  (Return newUser, s).

Definition findAll : method (list User.t) := λ s,
  (Return (users s), s).

Definition findOne (id : Z) : method User.t := λ s,
  match find (has_id id) (users s) with
  | None => (Throw (NotFoundException id), s)
  | Some user => (Return user, s)
  end.

Definition update (id : Z) (updateUserDto : UpdateUserDto.t) : method User.t := λ s,
  let userIndex := findIndex (has_id id) (users s) in
  if userIndex =? -1 then (Throw (NotFoundException id), s)
  else
    match users s !! Z.to_nat userIndex with
    | None => (Throw (NotFoundException id), s) (* not reached: see [findIndex_lookup] *)
    | Some user =>
        let updatedUser := merge user updateUserDto in
        let s := {| users := assign (users s) (Z.to_nat userIndex) updatedUser;
                    currentId := currentId s |} in
        (Return updatedUser, s)
    end.

Definition remove (id : Z) : method () := λ s,
  let userIndex := findIndex (has_id id) (users s) in
  if userIndex =? -1 then (Throw (NotFoundException id), s)
  else
    let s := {| users := splice (users s) (Z.to_nat userIndex) 1;
                currentId := currentId s |} in
    (Return (), s).

(** *** Sequences of calls *)

Inductive call : Type :=
  | Create (createUserDto : CreateUserDto.t)
  | FindAll
  | FindOne (id : Z)
  | Update (id : Z) (updateUserDto : UpdateUserDto.t)
  | Remove (id : Z).

(** What a call hands back to its caller. *)
Inductive value : Type :=
  | VUser (user : User.t)
  | VUsers (all : list User.t)
  | VVoid.

Definition returning {A : Type} (inj : A → value) (m : method A) : method value :=
  λ s, match m s with
       | (Return a, s') => (Return (inj a), s')
       | (Throw e, s') => (Throw e, s')
       end.

Definition step (c : call) : method value :=
  match c with
  | Create dto => returning VUser (create dto)
  | FindAll => returning VUsers findAll
  | FindOne id => returning VUser (findOne id)
  | Update id dto => returning VUser (update id dto)
  | Remove id => returning (λ _, VVoid) (remove id)
  end.

(** The state after a sequence of calls, and the log of each call with
    its outcome. *)
Fixpoint exec (cs : list call) (s : t) : t :=
  match cs with
  | [] => s
  | c :: rest => exec rest (step c s).2
  end.

Fixpoint trace (cs : list call) (s : t) : list (call * outcome value) :=
  match cs with
  | [] => []
  | c :: rest => (c, (step c s).1) :: trace rest (step c s).2
  end.

Definition reachable (s : t) : Prop := ∃ cs, exec cs init = s.

Definition is_create (c : call) : bool :=
  match c with Create _ => true | _ => false end.

Definition is_successful_remove (e : call * outcome value) : bool :=
  match e with (Remove _, Return _) => true | _ => false end.

(** The number of [create] calls in a sequence of calls, and the
    number of [remove] calls in a log that did not throw. *)
Definition creates (cs : list call) : nat := length (filter is_create cs).

Definition successful_removes (tr : list (call * outcome value)) : nat :=
  length (filter is_successful_remove tr).

(** The ids of the collection, front to back. *)
Definition ids (s : t) : list Z := User.id <$> users s.

(** The invariant of the service: no id in the collection has reached
    the counter yet, and the ids in the collection increase from front
    to back. *)
Definition ids_below_counter (s : t) : Prop :=
  Forall (λ i, i < currentId s) (ids s).

Definition ids_increasing (s : t) : Prop := StronglySorted Z.lt (ids s).

Definition invariant (s : t) : Prop := ids_increasing s ∧ ids_below_counter s.

(** No record of the collection has id [i]. *)
Definition absent (i : Z) (s : t) : Prop :=
  Forall (λ u, User.id u ≠ i) (users s).

(** The record that [create] builds in state [s]. *)
Definition new_user (createUserDto : CreateUserDto.t) (s : t) : User.t :=
  {| User.id := currentId s;
     User.name := CreateUserDto.name createUserDto;
     User.email := CreateUserDto.email createUserDto |}.

(** The ids handed out by the [create] calls of a log, in call order,
    and the ids given to the [remove] calls that did not throw. *)
Fixpoint created (tr : list (call * outcome value)) : list Z :=
  match tr with
  | [] => []
  | (Create _, Return (VUser user)) :: rest => User.id user :: created rest
  | _ :: rest => created rest
  end.

Fixpoint removed (tr : list (call * outcome value)) : list Z :=
  match tr with
  | [] => []
  | (Remove id, Return _) :: rest => id :: removed rest
  | _ :: rest => removed rest
  end.

(** Sample payloads. *)
Definition john : CreateUserDto.t :=
  {| CreateUserDto.name := "John Doe"; CreateUserDto.email := "john@example.com" |}.
Definition jane : CreateUserDto.t :=
  {| CreateUserDto.name := "Jane"; CreateUserDto.email := "jane@example.com" |}.
Definition rename (v : string) : UpdateUserDto.t :=
  {| UpdateUserDto.name := Some v; UpdateUserDto.email := None |}.

(** The state after [create(john)] and [create(jane)]. *)
Definition two_users : t := exec [Create john; Create jane] init.

(** A session of calls: two records are created, read and renamed,
    the second one is removed, and a third one is created. *)
Definition session : list call :=
  [Create john; Create jane; FindAll; FindOne 1; Update 1 (rename "Jonathan");
   Remove 2; FindOne 2; Create jane].

End UserService.

(** ** Part 2: reference semantics of [UserService] *)

Module UserServiceRef.

(** Object references. *)
Definition ref : Type := positive.

(** The objects the service creates: user records and the one array
    that holds them. *)
Inductive object : Type :=
  | ObjUser (user : User.t)
  | ObjArray (elements : list ref).

(** The heap that the service shares with its callers, and the two
    private fields; [users] is the reference to the array. *)
Record t : Type := mk { heap : gmap ref object; users : ref; currentId : Z }.

Definition method (A : Type) : Type := t → outcome A * t.

(** Allocation of a new object at an unused reference. *)
Definition alloc (o : object) (h : gmap ref object) : ref * gmap ref object :=
  let r := fresh (dom h) in (r, <[r := o]> h).

Definition user_at (h : gmap ref object) (r : ref) : option User.t :=
  match h !! r with Some (ObjUser user) => Some user | _ => None end.

Definition array_at (h : gmap ref object) (r : ref) : list ref :=
  match h !! r with Some (ObjArray elements) => elements | _ => [] end.

(** [new UserService()]: the field initialisers allocate the empty
    array and set the counter to 1. *)
Definition init : t :=
  let '(a, h) := alloc (ObjArray []) ∅ in
  {| heap := h; users := a; currentId := 1 |}.

(** [(user) => user.id === id] on a reference. *)
Definition has_id (h : gmap ref object) (id : Z) (r : ref) : bool :=
  match user_at h r with
  | Some user => User.id user =? id
  | None => false
  end.

Definition create (createUserDto : CreateUserDto.t) : method ref := λ s,
  let id := currentId s in
  let s := {| heap := heap s; users := users s; currentId := currentId s + 1 |} in
  let '(newUser, h) :=
    alloc (ObjUser {| User.id := id;
                      User.name := CreateUserDto.name createUserDto;
                      User.email := CreateUserDto.email createUserDto |}) (heap s) in
  let h := <[users s := ObjArray (push (array_at h (users s)) newUser)]> h in
  (Return newUser, {| heap := h; users := users s; currentId := currentId s |}).

Definition findAll : method ref := λ s,
  (Return (users s), s).

Definition findOne (id : Z) : method ref := λ s,
  match find (has_id (heap s) id) (array_at (heap s) (users s)) with
  | None => (Throw (NotFoundException id), s)
  | Some user => (Return user, s)
  end.

Definition update (id : Z) (updateUserDto : UpdateUserDto.t) : method ref := λ s,
  let userIndex := findIndex (has_id (heap s) id) (array_at (heap s) (users s)) in
  if userIndex =? -1 then (Throw (NotFoundException id), s)
  else
    match array_at (heap s) (users s) !! Z.to_nat userIndex ≫= user_at (heap s) with
    | None => (Throw (NotFoundException id), s) (* not reached in a well-formed heap *)
    | Some user =>
        let '(updatedUser, h) :=
          alloc (ObjUser (UserService.merge user updateUserDto)) (heap s) in
        let h := <[users s := ObjArray (assign (array_at h (users s))
                                               (Z.to_nat userIndex) updatedUser)]> h in
        (Return updatedUser, {| heap := h; users := users s; currentId := currentId s |})
    end.

Definition remove (id : Z) : method () := λ s,
  let userIndex := findIndex (has_id (heap s) id) (array_at (heap s) (users s)) in
  if userIndex =? -1 then (Throw (NotFoundException id), s)
  else
    let h := <[users s := ObjArray (splice (array_at (heap s) (users s))
                                           (Z.to_nat userIndex) 1)]> (heap s) in
    (Return (), {| heap := h; users := users s; currentId := currentId s |}).

(** *** What a caller can do with a reference it was handed *)

(** An assignment to a property of a user object: [r.id = v],
    [r.name = v], [r.email = v]. *)
Inductive assignment : Type :=
  | SetId (v : Z)
  | SetName (v : string)
  | SetEmail (v : string).

Definition assigned (a : assignment) (user : User.t) : User.t :=
  match a with
  | SetId v => {| User.id := v; User.name := User.name user; User.email := User.email user |}
  | SetName v => {| User.id := User.id user; User.name := v; User.email := User.email user |}
  | SetEmail v => {| User.id := User.id user; User.name := User.name user; User.email := v |}
  end.

Definition write_object (a : assignment) (o : object) : object :=
  match o with
  | ObjUser user => ObjUser (assigned a user)
  | ObjArray elements => ObjArray elements
  end.

(** The caller executes the assignment on the object behind [r]. *)
Definition write (r : ref) (a : assignment) (s : t) : t :=
  {| heap := alter (write_object a) r (heap s); users := users s; currentId := currentId s |}.

Definition pop_object (o : object) : object :=
  match o with
  | ObjUser user => ObjUser user
  | ObjArray elements => ObjArray (take (length elements - 1) elements)
  end.

(** The caller executes [r.pop()] on the array behind [r]. *)
Definition pop (r : ref) (s : t) : t :=
  {| heap := alter pop_object r (heap s); users := users s; currentId := currentId s |}.

(** *** The service as its methods show it *)

(** The records behind the references of the array, in array order,
    and the counter. *)
Definition records (s : t) : list User.t :=
  omap (user_at (heap s)) (array_at (heap s) (users s)).

Definition view (s : t) : UserService.t :=
  {| UserService.users := records s; UserService.currentId := currentId s |}.

(** [users] refers to an array whose elements all refer to user
    objects. *)
Definition well_formed (s : t) : Prop :=
  (∃ elements, heap s !! users s = Some (ObjArray elements)) ∧
  Forall (λ r, is_Some (user_at (heap s) r)) (array_at (heap s) (users s)).

(** *** Sequences of calls *)

(** What a call hands back: a reference to a user object, the
    reference to the array, or nothing. *)
Inductive returned : Type :=
  | RUser (r : ref)
  | RArray (r : ref)
  | RVoid.

Definition returning {A : Type} (inj : A → returned) (m : method A) : method returned :=
  λ s, match m s with
       | (Return a, s') => (Return (inj a), s')
       | (Throw e, s') => (Throw e, s')
       end.

Definition step (c : UserService.call) : method returned :=
  match c with
  | UserService.Create dto => returning RUser (create dto)
  | UserService.FindAll => returning RArray findAll
  | UserService.FindOne id => returning RUser (findOne id)
  | UserService.Update id dto => returning RUser (update id dto)
  | UserService.Remove id => returning (λ _, RVoid) (remove id)
  end.

(** What the caller reads behind the outcome of a call when the call
    returns, in state [s]; [None] when a reference does not lead to an
    object of the expected kind. *)
Definition read (s : t) (o : outcome returned) : option (outcome UserService.value) :=
  match o with
  | Throw e => Some (Throw e)
  | Return RVoid => Some (Return UserService.VVoid)
  | Return (RUser r) => (λ u, Return (UserService.VUser u)) <$> user_at (heap s) r
  | Return (RArray r) =>
      Some (Return (UserService.VUsers (omap (user_at (heap s)) (array_at (heap s) r))))
  end.

Fixpoint exec (cs : list UserService.call) (s : t) : t :=
  match cs with
  | [] => s
  | c :: rest => exec rest (step c s).2
  end.

(** The log of a sequence of calls: each call with what the caller
    reads from its outcome. *)
Fixpoint trace (cs : list UserService.call) (s : t)
    : list (UserService.call * option (outcome UserService.value)) :=
  match cs with
  | [] => []
  | c :: rest => (c, read (step c s).2 (step c s).1) :: trace rest (step c s).2
  end.

(** The ownership sentence of the specification, in its own words:
    whatever reference a method returns, what the caller does to the
    object behind it does not show in the service. *)
Definition callers_receive_copies : Prop :=
  ∀ s, well_formed s →
    (∀ dto r s' a, create dto s = (Return r, s') → view (write r a s') = view s') ∧
    (∀ r s', findAll s = (Return r, s') → view (pop r s') = view s') ∧
    (∀ i r s' a, findOne i s = (Return r, s') → view (write r a s') = view s') ∧
    (∀ i dto r s' a, update i dto s = (Return r, s') → view (write r a s') = view s').

(** The state after [create(john)] on a new service. *)
Definition one_user : t := (create UserService.john init).2.

End UserServiceRef.


(** ** Notions for the laws of the service *)

Module Laws.

(** [{ ...d1, ...d2 }] on two update DTOs: a property of [d2] overrides
    the property of the same name of [d1]. *)
Definition overlay (d1 d2 : UpdateUserDto.t) : UpdateUserDto.t :=
  {| UpdateUserDto.name :=
       match UpdateUserDto.name d2 with Some v => Some v | None => UpdateUserDto.name d1 end;
     UpdateUserDto.email :=
       match UpdateUserDto.email d2 with Some v => Some v | None => UpdateUserDto.email d1 end |}.

(** The update DTO [{}], with no property. *)
Definition no_fields : UpdateUserDto.t :=
  {| UpdateUserDto.name := None; UpdateUserDto.email := None |}.

(** The calls to the two reading methods. *)
Definition is_query (c : UserService.call) : bool :=
  match c with
  | UserService.FindAll | UserService.FindOne _ => true
  | _ => false
  end.

(** A sequence of calls without its calls to the reading methods. *)
Definition commands (cs : list UserService.call) : list UserService.call :=
  filter (λ c, is_query c = false) cs.

(** No reference occurs twice in the array of the service. *)
Definition unshared (s : UserServiceRef.t) : Prop :=
  NoDup (UserServiceRef.array_at (UserServiceRef.heap s) (UserServiceRef.users s)).

End Laws.

(** * Properties *)

(** ** Facts about the array primitives *)

Section ArrayFacts.
Context {A : Type} (p : A → bool).

Lemma findIndex_from_cases (k : Z) (xs : list A) :
  (findIndex_from p k xs = -1 ∧ find p xs = None ∧ Forall (λ y, p y = false) xs) ∨
  (∃ n x, findIndex_from p k xs = k + Z.of_nat n ∧ find p xs = Some x ∧ first_at p xs n x).
Proof.
  revert k. induction xs as [|a xs IH]; intros k; simpl.
  - left. by repeat split.
  - destruct (p a) eqn:Hpa.
    + right. exists 0%nat, a. split; [lia|]. split; [done|].
      repeat split; [done | by constructor].
    + destruct (IH (k + 1)) as [(Hi & Hf & Hall) | (n & x & Hi & Hf & Hl & Hx & Hall)].
      * left. repeat split; try done. by constructor.
      * right. exists (S n), x. split; [lia|]. split; [done|].
        repeat split; try done. simpl. by constructor.
Qed.

Lemma findIndex_cases (xs : list A) :
  (findIndex p xs = -1 ∧ find p xs = None ∧ Forall (λ y, p y = false) xs) ∨
  (∃ n x, findIndex p xs = Z.of_nat n ∧ find p xs = Some x ∧ first_at p xs n x).
Proof.
  unfold findIndex.
  destruct (findIndex_from_cases 0 xs) as [?|(n & x & Hi & ?)]; [by left|].
  right. exists n, x. split; [lia | done].
Qed.

(** The index that [findIndex] reports is an index of the array. *)
Lemma findIndex_lookup (xs : list A) :
  findIndex p xs ≠ -1 → is_Some (xs !! Z.to_nat (findIndex p xs)).
Proof.
  destruct (findIndex_cases xs) as [(? & _)|(n & x & Hi & _ & Hl & _)]; [done|].
  intros _. rewrite Hi, Nat2Z.id. eauto.
Qed.

Lemma first_at_lt (xs : list A) (n : nat) (x : A) :
  first_at p xs n x → (n < length xs)%nat.
Proof. intros (Hl & _). by eapply lookup_lt_Some. Qed.

Lemma first_at_split (xs : list A) (n : nat) (x : A) :
  first_at p xs n x → xs = take n xs ++ x :: drop (S n) xs.
Proof. intros (Hl & _). by rewrite take_drop_middle. Qed.

Lemma first_at_unique (xs : list A) (n m : nat) (x y : A) :
  first_at p xs n x → first_at p xs m y → n = m ∧ x = y.
Proof.
  intros (Hn & Hx & Hbn) (Hm & Hy & Hbm).
  assert (n = m) as ->.
  { destruct (Nat.lt_trichotomy n m) as [Hlt|[->|Hlt]]; [|done|].
    - rewrite Forall_lookup in Hbm. specialize (Hbm n x).
      rewrite lookup_take_lt in Hbm by done. specialize (Hbm Hn). congruence.
    - rewrite Forall_lookup in Hbn. specialize (Hbn m y).
      rewrite lookup_take_lt in Hbn by done. specialize (Hbn Hm). congruence. }
  split; [done | congruence].
Qed.

Lemma Forall_false_no_first (xs : list A) (n : nat) (x : A) :
  Forall (λ y, p y = false) xs → ¬ first_at p xs n x.
Proof.
  intros Hall (Hl & Hx & _). rewrite Forall_lookup in Hall.
  specialize (Hall _ _ Hl). congruence.
Qed.

Lemma find_app_skip (xs ys : list A) :
  Forall (λ y, p y = false) xs → find p (xs ++ ys) = find p ys.
Proof. induction 1 as [|a xs Ha _ IH]; simpl; [done|]. by rewrite Ha. Qed.

Lemma splice_one_length (xs : list A) (n : nat) :
  (n < length xs)%nat → S (length (splice xs n 1)) = length xs.
Proof.
  intros Hn. unfold splice. rewrite length_app, length_take, length_drop. lia.
Qed.

Lemma splice_one_middle (l1 l2 : list A) (x : A) :
  splice (l1 ++ x :: l2) (length l1) 1 = l1 ++ l2.
Proof.
  unfold splice. rewrite take_app_length.
  replace (length l1 + 1)%nat with (length l1 + 1 + 0)%nat by lia.
  rewrite <- Nat.add_assoc. rewrite drop_app_add. done.
Qed.
End ArrayFacts.

(** ** Part 1: the methods, one call at a time *)

Module UserServiceFacts.
Import UserService.

Lemma has_id_true (i : Z) (u : User.t) : has_id i u = true ↔ User.id u = i.
Proof. unfold has_id. apply Z.eqb_eq. Qed.

Lemma has_id_false (i : Z) (u : User.t) : has_id i u = false ↔ User.id u ≠ i.
Proof. unfold has_id. apply Z.eqb_neq. Qed.

Lemma absent_has_id (i : Z) (s : t) :
  absent i s ↔ Forall (λ u, has_id i u = false) (users s).
Proof. unfold absent. apply Forall_proper; [|done]. intros u. by rewrite has_id_false. Qed.

Lemma absent_not_elem (i : Z) (s : t) :
  absent i s ↔ ¬ ∃ u, u ∈ users s ∧ User.id u = i.
Proof.
  unfold absent. rewrite Forall_forall. split.
  - intros H (u & Hu & Hi). by apply (H u).
  - intros H u Hu Hi. apply H. eauto.
Qed.

Lemma findOne_cases (i : Z) (s : t) :
  (absent i s ∧ findOne i s = (Throw (NotFoundException i), s)) ∨
  (∃ n u, first_at (has_id i) (users s) n u ∧ findOne i s = (Return u, s)).
Proof.
  unfold findOne.
  destruct (findIndex_cases (has_id i) (users s))
    as [(_ & -> & Hall)|(n & u & _ & -> & Hfirst)].
  - left. by rewrite absent_has_id.
  - right. eauto.
Qed.

Lemma update_cases (i : Z) (dto : UpdateUserDto.t) (s : t) :
  (absent i s ∧ update i dto s = (Throw (NotFoundException i), s)) ∨
  (∃ n u, first_at (has_id i) (users s) n u ∧
          update i dto s =
            (Return (merge u dto),
             {| users := <[n := merge u dto]> (users s); currentId := currentId s |})).
Proof.
  unfold update.
  destruct (findIndex_cases (has_id i) (users s))
    as [(-> & _ & Hall)|(n & u & -> & _ & Hfirst)].
  - left. by rewrite absent_has_id.
  - right. exists n, u. split; [done|].
    replace (Z.of_nat n =? -1) with false by (symmetry; apply Z.eqb_neq; lia).
    rewrite Nat2Z.id. destruct Hfirst as (-> & _). done.
Qed.

Lemma remove_cases (i : Z) (s : t) :
  (absent i s ∧ remove i s = (Throw (NotFoundException i), s)) ∨
  (∃ n u, first_at (has_id i) (users s) n u ∧
          remove i s =
            (Return (),
             {| users := take n (users s) ++ drop (S n) (users s);
                currentId := currentId s |})).
Proof.
  unfold remove.
  destruct (findIndex_cases (has_id i) (users s))
    as [(-> & _ & Hall)|(n & u & -> & _ & Hfirst)].
  - left. by rewrite absent_has_id.
  - right. exists n, u. split; [done|].
    replace (Z.of_nat n =? -1) with false by (symmetry; apply Z.eqb_neq; lia).
    rewrite Nat2Z.id. unfold splice. by rewrite Nat.add_1_r.
Qed.

Lemma absent_no_first (i : Z) (s : t) (n : nat) (u : User.t) :
  absent i s → ¬ first_at (has_id i) (users s) n u.
Proof. rewrite absent_has_id. apply Forall_false_no_first. Qed.

Lemma first_at_id (i : Z) (us : list User.t) (n : nat) (u : User.t) :
  first_at (has_id i) us n u → us !! n = Some u ∧ User.id u = i.
Proof. intros (Hl & Hu & _). by rewrite has_id_true in Hu. Qed.

Lemma create_eq (dto : CreateUserDto.t) (s : t) :
  create dto s =
    (Return (new_user dto s),
     {| users := users s ++ [new_user dto s]; currentId := currentId s + 1 |}).
Proof. reflexivity. Qed.

Lemma returning_state {A : Type} (inj : A → value) (m : method A) (s : t) :
  (returning inj m s).2 = (m s).2.
Proof. unfold returning. by destruct (m s) as [[a|e] s']. Qed.

Lemma returning_outcome {A : Type} (inj : A → value) (m : method A) (s : t) :
  (returning inj m s).1 =
    match (m s).1 with Return a => Return (inj a) | Throw e => Throw e end.
Proof. unfold returning. by destruct (m s) as [[a|e] s']. Qed.

(** *** The invariant of the reachable states *)

Lemma sorted_without_middle (l1 l2 : list Z) (x : Z) :
  StronglySorted Z.lt (l1 ++ x :: l2) → StronglySorted Z.lt (l1 ++ l2).
Proof.
  rewrite !StronglySorted_app, StronglySorted_cons.
  intros (Hcross & H1 & _ & H2). repeat split; [|done..].
  intros a b Ha Hb. apply Hcross; [done|]. by apply list_elem_of_further.
Qed.

Lemma ids_update (s : t) (n : nat) (u : User.t) (dto : UpdateUserDto.t) :
  users s !! n = Some u →
  User.id <$> <[n := merge u dto]> (users s) = User.id <$> users s.
Proof.
  intros Hl. rewrite list_fmap_insert. apply list_insert_id.
  by rewrite list_lookup_fmap, Hl.
Qed.

Lemma ids_split (s : t) (n : nat) (u : User.t) :
  users s !! n = Some u →
  ids s = (User.id <$> take n (users s)) ++ User.id u :: (User.id <$> drop (S n) (users s)).
Proof.
  intros Hl. unfold ids. rewrite <- (take_drop_middle _ _ _ Hl) at 1.
  by rewrite fmap_app, fmap_cons.
Qed.

Lemma invariant_init : invariant init.
Proof. split; [constructor | by apply Forall_nil]. Qed.

Lemma invariant_create (dto : CreateUserDto.t) (s : t) :
  invariant s → invariant (create dto s).2.
Proof.
  intros [Hinc Hbel]. rewrite create_eq. split.
  - unfold ids_increasing, ids. simpl. rewrite fmap_app.
    apply StronglySorted_app. repeat split; [|done|repeat constructor].
    intros a b Ha Hb. apply list_elem_of_singleton in Hb as ->.
    unfold ids_below_counter, ids in Hbel. rewrite Forall_forall in Hbel.
    by apply Hbel.
  - unfold ids_below_counter, ids in *. simpl. rewrite fmap_app.
    apply Forall_app. split.
    + eapply Forall_impl; [exact Hbel|]. simpl. intros; lia.
    + repeat constructor. simpl. lia.
Qed.

Lemma invariant_update (i : Z) (dto : UpdateUserDto.t) (s : t) :
  invariant s → invariant (update i dto s).2.
Proof.
  intros Hinv.
  destruct (update_cases i dto s) as [(_ & ->)|(n & u & (Hl & _) & ->)]; [done|].
  destruct Hinv as [Hinc Hbel].
  unfold invariant, ids_increasing, ids_below_counter, ids in *. simpl.
  by rewrite ids_update.
Qed.

Lemma invariant_remove (i : Z) (s : t) :
  invariant s → invariant (remove i s).2.
Proof.
  intros Hinv.
  destruct (remove_cases i s) as [(_ & ->)|(n & u & (Hl & _) & ->)]; [done|].
  destruct Hinv as [Hinc Hbel].
  unfold invariant, ids_increasing, ids_below_counter in *.
  rewrite (ids_split _ _ _ Hl) in Hinc, Hbel. unfold ids. simpl.
  rewrite fmap_app. split.
  - by eapply sorted_without_middle.
  - rewrite Forall_app, Forall_cons in Hbel. apply Forall_app. tauto.
Qed.

Lemma invariant_step (c : call) (s : t) : invariant s → invariant (step c s).2.
Proof.
  intros Hinv. destruct c; unfold step; rewrite returning_state.
  - by apply invariant_create.
  - done.
  - unfold findOne. by destruct (find _ _).
  - by apply invariant_update.
  - by apply invariant_remove.
Qed.

Lemma invariant_exec (cs : list call) (s : t) : invariant s → invariant (exec cs s).
Proof.
  revert s. induction cs as [|c cs IH]; intros s Hinv; simpl; [done|].
  apply IH. by apply invariant_step.
Qed.

Lemma reachable_invariant (s : t) : reachable s → invariant s.
Proof. intros [cs <-]. apply invariant_exec, invariant_init. Qed.

Lemma reachable_two_users : reachable two_users.
Proof. by exists [Create john; Create jane]. Qed.

Lemma present_not_absent (i : Z) (s : t) (u0 : User.t) :
  u0 ∈ users s → User.id u0 = i → ¬ absent i s.
Proof. intros Hin Hid Habs. apply absent_not_elem in Habs. apply Habs. eauto. Qed.

(** Once the first record with id [i] is gone from a state that
    satisfies the invariant, no record with id [i] is left. *)
Lemma absent_after_removal (i : Z) (s : t) (n : nat) (u : User.t) :
  invariant s → first_at (has_id i) (users s) n u →
  Forall (λ v, User.id v ≠ i) (take n (users s) ++ drop (S n) (users s)).
Proof.
  intros [Hinc _] Hfirst. pose proof Hfirst as (Hl & Hu & Hbefore).
  apply has_id_true in Hu. apply Forall_app. split.
  - eapply Forall_impl; [exact Hbefore|]. intros v. by rewrite has_id_false.
  - unfold ids_increasing in Hinc. rewrite (ids_split _ _ _ Hl) in Hinc.
    apply StronglySorted_app in Hinc as (_ & _ & Hinc).
    apply StronglySorted_cons in Hinc as (Hafter & _).
    rewrite Forall_fmap in Hafter.
    eapply Forall_impl; [exact Hafter|]. simpl. intros v. lia.
Qed.

Lemma remove_absent (s : t) (i : Z) :
  absent i s → remove i s = (Throw (NotFoundException i), s).
Proof.
  intros Habs. destruct (remove_cases i s) as [(_ & Hr)|(n & u & Hfirst & _)]; [done|].
  by destruct (absent_no_first i s n u).
Qed.

(** *** One call at a time *)

(** C2: [update(i, partialFields)] on a state that holds a record with
    id [i] rewrites the first such record, at its index [n]: the new
    record keeps the id, takes the fields that the DTO carries and
    keeps the others; it is stored at index [n] and returned; every
    other index, the length and the counter are as before. *)
Theorem update_changes_only_given_fields
    (s : t) (i : Z) (dto : UpdateUserDto.t) (u0 : User.t) :
  u0 ∈ users s → User.id u0 = i →
  ∃ n old new s',
    first_at (has_id i) (users s) n old ∧
    update i dto s = (Return new, s') ∧
    User.id new = User.id old ∧
    User.name new =
      match UpdateUserDto.name dto with Some v => v | None => User.name old end ∧
    User.email new =
      match UpdateUserDto.email dto with Some v => v | None => User.email old end ∧
    users s' !! n = Some new ∧
    length (users s') = length (users s) ∧
    (∀ j, j ≠ n → users s' !! j = users s !! j) ∧
    currentId s' = currentId s.
Proof.
  intros Hin Hid.
  destruct (update_cases i dto s) as [(Habs & _)|(n & old & Hfirst & Heq)].
  { by destruct (present_not_absent i s u0). }
  eexists n, old, _, _. split; [done|]. split; [exact Heq|]. simpl.
  split_and!.
  - done.
  - by destruct (UpdateUserDto.name dto).
  - by destruct (UpdateUserDto.email dto).
  - apply list_lookup_insert_eq. by eapply first_at_lt.
  - apply length_insert.
  - intros j Hj. by apply list_lookup_insert_ne.
  - done.
Qed.

Lemma update_changes_only_given_fields_witness :
  ∃ n old new s',
    first_at (has_id 1) (users two_users) n old ∧
    update 1 (rename "Jonathan") two_users = (Return new, s') ∧
    User.id new = User.id old ∧
    User.name new = "Jonathan" ∧
    User.email new = User.email old ∧
    users s' !! n = Some new ∧
    length (users s') = length (users two_users) ∧
    (∀ j, j ≠ n → users s' !! j = users two_users !! j) ∧
    currentId s' = currentId two_users.
Proof.
  apply (update_changes_only_given_fields two_users 1 (rename "Jonathan")
           (new_user john init)).
  - vm_compute. left.
  - reflexivity.
Defined.

(** C3: [findOne(i)], [update(i, dto)] and [remove(i)] each throw
    [NotFoundException] exactly when no record of the collection has
    id [i]; when some record has, [findOne] returns the first such
    record, [update] returns its merge with the DTO, and [remove]
    takes exactly that record out, so that the collection is one
    shorter. *)
Theorem not_found_iff_absent (s : t) (i : Z) (dto : UpdateUserDto.t) :
  ((findOne i s).1 = Throw (NotFoundException i) ↔ absent i s) ∧
  ((update i dto s).1 = Throw (NotFoundException i) ↔ absent i s) ∧
  ((remove i s).1 = Throw (NotFoundException i) ↔ absent i s) ∧
  (∀ u0, u0 ∈ users s → User.id u0 = i →
     ∃ n u, first_at (has_id i) (users s) n u ∧
            (findOne i s).1 = Return u ∧
            (update i dto s).1 = Return (merge u dto) ∧
            users (update i dto s).2 !! n = Some (merge u dto) ∧
            (remove i s).1 = Return () ∧
            users s = take n (users s) ++ u :: drop (S n) (users s) ∧
            users (remove i s).2 = take n (users s) ++ drop (S n) (users s) ∧
            S (length (users (remove i s).2)) = length (users s)).
Proof.
  destruct (findOne_cases i s) as [(Habs & Hf)|(n & u & Hfirst & Hf)];
  destruct (update_cases i dto s) as [(Habs' & Hu)|(n' & u' & Hfirst' & Hu)];
  destruct (remove_cases i s) as [(Habs'' & Hr)|(n'' & u'' & Hfirst'' & Hr)];
  try (exfalso; eapply absent_no_first; eassumption).
  - rewrite Hf, Hu, Hr. repeat split; try done.
    intros u0 Hin Hid. by destruct (present_not_absent i s u0).
  - destruct (first_at_unique _ _ _ _ _ _ Hfirst Hfirst') as [<- <-].
    destruct (first_at_unique _ _ _ _ _ _ Hfirst Hfirst'') as [<- <-].
    rewrite Hf, Hu, Hr. simpl.
    repeat split; try done;
      try (intros Habs; exfalso; eapply absent_no_first; eassumption).
    intros _ _ _. exists n, u. repeat split; try done; try apply Hfirst.
    + apply list_lookup_insert_eq. by eapply first_at_lt.
    + by eapply first_at_split.
    + rewrite length_app, length_take, length_drop.
      pose proof (first_at_lt _ _ _ _ Hfirst). lia.
Qed.

Lemma not_found_iff_absent_witness :
  ∃ n u, first_at (has_id 2) (users two_users) n u ∧
         (findOne 2 two_users).1 = Return u ∧
         (update 2 (rename "J") two_users).1 = Return (merge u (rename "J")) ∧
         users (update 2 (rename "J") two_users).2 !! n = Some (merge u (rename "J")) ∧
         (remove 2 two_users).1 = Return () ∧
         users two_users = take n (users two_users) ++ u :: drop (S n) (users two_users) ∧
         users (remove 2 two_users).2 =
           take n (users two_users) ++ drop (S n) (users two_users) ∧
         S (length (users (remove 2 two_users).2)) = length (users two_users).
Proof.
  apply (proj2 (proj2 (proj2 (not_found_iff_absent two_users 2 (rename "J"))))
           (new_user jane (create john init).2)).
  - vm_compute. right. left.
  - reflexivity.
Defined.

(** C10: a call of [findOne], [update] or [remove] with an id that no
    record has throws and leaves the whole state, collection and
    counter, as it was. *)
Theorem failed_call_keeps_state (s : t) (i : Z) (dto : UpdateUserDto.t) :
  absent i s →
  findOne i s = (Throw (NotFoundException i), s) ∧
  update i dto s = (Throw (NotFoundException i), s) ∧
  remove i s = (Throw (NotFoundException i), s).
Proof.
  intros Habs. split_and!.
  - destruct (findOne_cases i s) as [(_ & Hf)|(n & u & Hfirst & _)]; [done|].
    by destruct (absent_no_first i s n u).
  - destruct (update_cases i dto s) as [(_ & Hu)|(n & u & Hfirst & _)]; [done|].
    by destruct (absent_no_first i s n u).
  - by apply remove_absent.
Qed.

Lemma failed_call_keeps_state_witness :
  findOne 7 two_users = (Throw (NotFoundException 7), two_users) ∧
  update 7 (rename "J") two_users = (Throw (NotFoundException 7), two_users) ∧
  remove 7 two_users = (Throw (NotFoundException 7), two_users).
Proof.
  apply (failed_call_keeps_state two_users 7 (rename "J")).
  vm_compute. repeat constructor; discriminate.
Defined.

(** C4: in a reachable state, [create] returns a record, and
    [findOne] with the id of that record, called right after, returns
    the same record. *)
Theorem find_after_create (s : t) (dto : CreateUserDto.t) :
  reachable s →
  ∃ u s', create dto s = (Return u, s') ∧ findOne (User.id u) s' = (Return u, s').
Proof.
  intros Hreach. apply reachable_invariant in Hreach as [_ Hbel].
  eexists _, _. split; [apply create_eq|].
  unfold findOne. simpl. rewrite find_app_skip.
  - simpl. unfold has_id. simpl. by rewrite Z.eqb_refl.
  - unfold ids_below_counter, ids in Hbel. rewrite Forall_fmap in Hbel.
    eapply Forall_impl; [exact Hbel|]. simpl. intros v Hv.
    apply has_id_false. lia.
Qed.

Lemma find_after_create_witness :
  ∃ u s', create john two_users = (Return u, s') ∧
          findOne (User.id u) s' = (Return u, s').
Proof. apply (find_after_create two_users john). by exists [Create john; Create jane]. Defined.

(** C7: in a reachable state that holds a record with id [i], the
    first [remove(i)] returns and the second one, called right after,
    throws [NotFoundException]. *)
Theorem remove_twice (s : t) (i : Z) (u0 : User.t) :
  reachable s → u0 ∈ users s → User.id u0 = i →
  ∃ s1, remove i s = (Return (), s1) ∧
        remove i s1 = (Throw (NotFoundException i), s1).
Proof.
  intros Hreach Hin Hid. apply reachable_invariant in Hreach.
  destruct (remove_cases i s) as [(Habs & _)|(n & u & Hfirst & Hr)].
  { by destruct (present_not_absent i s u0). }
  eexists. split; [exact Hr|].
  apply remove_absent.
  unfold absent. simpl. by eapply absent_after_removal.
Qed.

Lemma remove_twice_witness :
  ∃ s1, remove 1 two_users = (Return (), s1) ∧
        remove 1 s1 = (Throw (NotFoundException 1), s1).
Proof.
  apply (remove_twice two_users 1 (new_user john init)).
  - by exists [Create john; Create jane].
  - vm_compute. left.
  - reflexivity.
Defined.

(** *** Sequences of calls *)

Lemma exec_app (cs1 cs2 : list call) (s : t) :
  exec (cs1 ++ cs2) s = exec cs2 (exec cs1 s).
Proof. revert s. induction cs1 as [|c cs1 IH]; intros s; simpl; [done|apply IH]. Qed.

(** Entry [j] of the log is call [j] with the outcome it has in the
    state that the first [j] calls lead to. *)
Lemma trace_lookup (cs : list call) (s : t) (j : nat) (c : call) (o : outcome value) :
  trace cs s !! j = Some (c, o) →
  cs !! j = Some c ∧ o = (step c (exec (take j cs) s)).1.
Proof.
  revert s j. induction cs as [|c0 cs IH]; intros s j; simpl; [done|].
  destruct j as [|j]; simpl.
  - intros [= <- <-]. done.
  - apply IH.
Qed.

Lemma step_currentId (c : call) (s : t) :
  currentId (step c s).2 = currentId s + (if is_create c then 1 else 0).
Proof.
  destruct c; unfold step; rewrite returning_state; simpl; try lia.
  - unfold findOne. destruct (find _ _); simpl; lia.
  - destruct (update_cases id updateUserDto s) as [(_ & ->)|(n & u & _ & ->)]; simpl; lia.
  - destruct (remove_cases id s) as [(_ & ->)|(n & u & _ & ->)]; simpl; lia.
Qed.

(** The counter is 1 plus the number of [create] calls so far. *)
Lemma exec_currentId (cs : list call) (s : t) :
  currentId (exec cs s) = currentId s + Z.of_nat (creates cs).
Proof.
  revert s. induction cs as [|c cs IH]; intros s; simpl; [unfold creates; simpl; lia|].
  rewrite IH, step_currentId. unfold creates. rewrite filter_cons.
  destruct c; simpl; lia.
Qed.

Lemma creates_app (cs1 cs2 : list call) :
  creates (cs1 ++ cs2) = (creates cs1 + creates cs2)%nat.
Proof. unfold creates. by rewrite filter_app, length_app. Qed.

Lemma creates_take_le (cs : list call) (j k : nat) :
  (j ≤ k)%nat → (creates (take j cs) ≤ creates (take k cs))%nat.
Proof.
  intros Hjk. replace (take j cs) with (take j (take k cs)).
  - rewrite <- (take_drop j (take k cs)) at 2. rewrite creates_app. lia.
  - rewrite take_take. f_equal. lia.
Qed.

Lemma creates_take_S (cs : list call) (j : nat) (d : CreateUserDto.t) :
  cs !! j = Some (Create d) → creates (take (S j) cs) = S (creates (take j cs)).
Proof.
  intros Hl. rewrite (take_S_r _ _ _ Hl), creates_app.
  unfold creates at 2. simpl. lia.
Qed.

(** The id that a [create] call hands out. *)
Lemma created_id (cs : list call) (s : t) (j : nat) (d : CreateUserDto.t) (u : User.t) :
  trace cs s !! j = Some (Create d, Return (VUser u)) →
  cs !! j = Some (Create d) ∧
  User.id u = currentId s + Z.of_nat (creates (take j cs)).
Proof.
  intros Hj. apply trace_lookup in Hj as [Hc Ho]. split; [done|].
  unfold step in Ho. rewrite returning_outcome, create_eq in Ho. simpl in Ho.
  injection Ho as ->. simpl. apply exec_currentId.
Qed.

(** An id that a [remove] call accepts is below the counter. *)
Lemma removed_id (cs : list call) (s : t) (j : nat) (i : Z) (v : value) :
  invariant s →
  trace cs s !! j = Some (Remove i, Return v) →
  i < currentId s + Z.of_nat (creates (take j cs)).
Proof.
  intros Hinv Hj. apply trace_lookup in Hj as [Hc Ho].
  rewrite <- exec_currentId.
  pose proof (invariant_exec (take j cs) s Hinv) as [_ Hbel].
  unfold step in Ho. rewrite returning_outcome in Ho.
  destruct (remove_cases i (exec (take j cs) s))
    as [(_ & Hr)|(n & u & Hfirst & _)]; [by rewrite Hr in Ho|].
  apply first_at_id in Hfirst as [Hl <-].
  unfold ids_below_counter, ids in Hbel. rewrite Forall_fmap, Forall_lookup in Hbel.
  exact (Hbel _ _ Hl).
Qed.

(** C1: in the log of any sequence of calls on a new service, every
    id handed out by [create] is at least 1 and greater than the id
    handed out by any earlier [create], and differs from the id of
    any record that an earlier [remove] took out. *)
Theorem created_ids_increase_and_are_never_reused (cs : list call) :
  (∀ j d u, trace cs init !! j = Some (Create d, Return (VUser u)) → 1 ≤ User.id u) ∧
  (∀ j k d d' u u', (j < k)%nat →
     trace cs init !! j = Some (Create d, Return (VUser u)) →
     trace cs init !! k = Some (Create d', Return (VUser u')) →
     User.id u < User.id u') ∧
  (∀ j k i d v u', (j < k)%nat →
     trace cs init !! j = Some (Remove i, Return v) →
     trace cs init !! k = Some (Create d, Return (VUser u')) →
     User.id u' ≠ i).
Proof.
  split_and!.
  - intros j d u Hj. apply created_id in Hj as [_ ->]. simpl. lia.
  - intros j k d d' u u' Hjk Hj Hk.
    apply created_id in Hj as [Hc ->]. apply created_id in Hk as [_ ->].
    pose proof (creates_take_le cs (S j) k ltac:(lia)) as Hle.
    rewrite (creates_take_S _ _ _ Hc) in Hle. lia.
  - intros j k i d v u' Hjk Hj Hk.
    apply removed_id in Hj; [|apply invariant_init].
    apply created_id in Hk as [_ ->].
    pose proof (creates_take_le cs j k ltac:(lia)) as Hle. lia.
Qed.

Lemma created_ids_increase_and_are_never_reused_witness :
  User.id (User.mk 1 "John Doe" "john@example.com") <
    User.id (User.mk 2 "Jane" "jane@example.com") ∧
  User.id (User.mk 3 "Jane" "jane@example.com") ≠ 2.
Proof.
  destruct (created_ids_increase_and_are_never_reused session) as (_ & Hinc & Hfresh).
  split.
  - apply (Hinc 0%nat 1%nat john jane); [lia | reflexivity | reflexivity].
  - apply (Hfresh 5%nat 7%nat 2 jane VVoid); [lia | reflexivity | reflexivity].
Defined.

(** C9: in the log of any sequence of calls on a new service, the
    [create] call at position [j] hands out the id [n], where [n] is
    its rank among the [create] calls: one more than the number of
    [create] calls before position [j]. *)
Theorem nth_create_returns_n (cs : list call) (j : nat) (d : CreateUserDto.t) (u : User.t) :
  trace cs init !! j = Some (Create d, Return (VUser u)) →
  User.id u = Z.of_nat (S (creates (take j cs))).
Proof. intros Hj. apply created_id in Hj as [_ ->]. simpl. lia. Qed.

Lemma nth_create_returns_n_witness :
  User.id (User.mk 3 "Jane" "jane@example.com") = Z.of_nat (S (creates (take 7 session))).
Proof. apply (nth_create_returns_n session 7 jane). reflexivity. Defined.

(** The walk through the methods that the documentation gives, with a
    third [create] at the end. *)
Lemma session_log :
  trace session init =
    [(Create john, Return (VUser (User.mk 1 "John Doe" "john@example.com")));
     (Create jane, Return (VUser (User.mk 2 "Jane" "jane@example.com")));
     (FindAll, Return (VUsers [User.mk 1 "John Doe" "john@example.com";
                               User.mk 2 "Jane" "jane@example.com"]));
     (FindOne 1, Return (VUser (User.mk 1 "John Doe" "john@example.com")));
     (Update 1 (rename "Jonathan"),
      Return (VUser (User.mk 1 "Jonathan" "john@example.com")));
     (Remove 2, Return VVoid);
     (FindOne 2, Throw (NotFoundException 2));
     (Create jane, Return (VUser (User.mk 3 "Jane" "jane@example.com")))] ∧
  exec session init =
    {| users := [User.mk 1 "Jonathan" "john@example.com";
                 User.mk 3 "Jane" "jane@example.com"];
       currentId := 4 |}.
Proof. split; reflexivity. Qed.

Lemma step_length (c : call) (s : t) :
  Z.of_nat (length (users (step c s).2)) =
    Z.of_nat (length (users s))
    + (if is_create c then 1 else 0)
    - (if is_successful_remove (c, (step c s).1) then 1 else 0).
Proof.
  destruct c; unfold step; rewrite returning_state, returning_outcome; simpl.
  - unfold push. rewrite length_app. simpl. lia.
  - lia.
  - unfold findOne. destruct (find _ _); simpl; lia.
  - destruct (update_cases id updateUserDto s) as [(_ & ->)|(n & u & _ & ->)]; simpl.
    + lia.
    + rewrite length_insert. lia.
  - destruct (remove_cases id s) as [(_ & ->)|(n & u & Hfirst & ->)]; simpl.
    + lia.
    + apply first_at_lt in Hfirst.
      rewrite length_app, length_take, length_drop. lia.
Qed.

Lemma exec_length (cs : list call) (s : t) :
  Z.of_nat (length (users (exec cs s))) =
    Z.of_nat (length (users s)) + Z.of_nat (creates cs)
    - Z.of_nat (successful_removes (trace cs s)).
Proof.
  revert s. induction cs as [|c cs IH]; intros s; simpl.
  - unfold creates, successful_removes. simpl. lia.
  - rewrite IH, step_length. unfold creates, successful_removes.
    rewrite !filter_cons.
    destruct (is_successful_remove (c, (step c s).1)) eqn:Hr, (is_create c) eqn:Hc;
      repeat case_decide; simpl in *; try done; lia.
Qed.

(** C5: after any sequence of calls on a new service, [findAll]
    returns a list whose length is the number of [create] calls minus
    the number of [remove] calls that did not throw. *)
Theorem list_length_is_creates_minus_removes (cs : list call) :
  ∃ all, findAll (exec cs init) = (Return all, exec cs init) ∧
         Z.of_nat (length all) =
           Z.of_nat (creates cs) - Z.of_nat (successful_removes (trace cs init)).
Proof.
  exists (users (exec cs init)). split; [done|].
  rewrite exec_length. simpl. lia.
Qed.

(** *** The order of the collection *)

Lemma filter_not_removed_cons (i : Z) (R L : list Z) :
  i ∉ L → filter (λ x, x ∉ i :: R) L = filter (λ x, x ∉ R) L.
Proof.
  induction L as [|x L IH]; [done|].
  rewrite not_elem_of_cons. intros [Hne Hnot].
  rewrite !filter_cons, IH by done.
  destruct (decide (x ∉ R)) as [HR|HR].
  - rewrite decide_True; [done|]. rewrite not_elem_of_cons. split; [congruence|done].
  - rewrite decide_False; [done|]. rewrite not_elem_of_cons. tauto.
Qed.

Lemma filter_removed_middle (i : Z) (R A B : list Z) :
  i ∉ A → i ∉ B →
  filter (λ x, x ∉ i :: R) (A ++ i :: B) = filter (λ x, x ∉ R) (A ++ B).
Proof.
  intros HA HB. rewrite !filter_app, filter_cons_False.
  - by rewrite !filter_not_removed_cons.
  - intros Hnot. apply Hnot. left.
Qed.

(** The ids that later [create] calls hand out have not been reached
    by the counter. *)
Lemma created_ge (cs : list call) (s : t) :
  Forall (λ i, currentId s ≤ i) (created (trace cs s)).
Proof.
  revert s. induction cs as [|c cs IH]; intros s; simpl; [constructor|].
  specialize (IH (step c s).2). rewrite step_currentId in IH.
  assert (Forall (λ i, currentId s ≤ i) (created (trace cs (step c s).2))) as Hrest.
  { eapply Forall_impl; [exact IH|]. simpl. intros i. destruct (is_create c); lia. }
  destruct c.
  - unfold step at 1. rewrite returning_outcome, create_eq. simpl.
    constructor; [lia | exact Hrest].
  - done.
  - destruct (step (FindOne id) s).1 as [[]|]; done.
  - destruct (step (Update id updateUserDto) s).1 as [[]|]; done.
  - destruct (step (Remove id) s).1 as [[]|]; done.
Qed.

Lemma step_cases (c : call) (s : t) :
  match c with
  | Create d =>
      step c s = (Return (VUser (new_user d s)),
                  {| users := users s ++ [new_user d s]; currentId := currentId s + 1 |})
  | FindAll => step c s = (Return (VUsers (users s)), s)
  | FindOne i =>
      step c s = (Throw (NotFoundException i), s) ∨
      ∃ u, step c s = (Return (VUser u), s)
  | Update i dto =>
      step c s = (Throw (NotFoundException i), s) ∨
      ∃ n u, first_at (has_id i) (users s) n u ∧
             step c s = (Return (VUser (merge u dto)),
                         {| users := <[n := merge u dto]> (users s);
                            currentId := currentId s |})
  | Remove i =>
      step c s = (Throw (NotFoundException i), s) ∨
      ∃ n u, first_at (has_id i) (users s) n u ∧
             step c s = (Return VVoid,
                         {| users := take n (users s) ++ drop (S n) (users s);
                            currentId := currentId s |})
  end.
Proof.
  destruct c as [d| |i|i dto|i]; unfold step, returning.
  - by rewrite create_eq.
  - done.
  - destruct (findOne_cases i s) as [(_ & ->)|(n & u & _ & ->)]; eauto.
  - destruct (update_cases i dto s) as [(_ & ->)|(n & u & ? & ->)]; eauto.
  - destruct (remove_cases i s) as [(_ & ->)|(n & u & ? & ->)]; eauto.
Qed.

Lemma filter_not_in_nil (L : list Z) : filter (λ x, x ∉ @nil Z) L = L.
Proof.
  induction L as [|x L IH]; [done|].
  rewrite filter_cons_True; [by rewrite IH|]. apply not_elem_of_nil.
Qed.

Lemma ids_exec (cs : list call) (s : t) :
  invariant s →
  ids (exec cs s) =
    filter (λ i, i ∉ removed (trace cs s)) (ids s ++ created (trace cs s)).
Proof.
  revert s. induction cs as [|c cs IH]; intros s Hinv; simpl.
  { by rewrite app_nil_r, filter_not_in_nil. }
  rewrite (IH _ (invariant_step c s Hinv)).
  pose proof (created_ge cs (step c s).2) as Hge.
  pose proof (step_cases c s) as Hstep.
  destruct c as [d| |i|i dto|i].
  - rewrite Hstep. simpl. unfold ids. simpl. by rewrite fmap_app, <- app_assoc.
  - rewrite Hstep. done.
  - destruct Hstep as [->|(u & ->)]; done.
  - destruct Hstep as [->|(n & u & (Hl & _) & ->)]; [done|].
    simpl. unfold ids. simpl. by rewrite ids_update.
  - destruct Hstep as [Hs|(n & u & Hfirst & Hs)]; rewrite Hs in *; [done|].
    simpl in *. pose proof Hfirst as (Hl & Hu & _). apply has_id_true in Hu.
    pose proof (absent_after_removal _ _ _ _ Hinv Hfirst) as Habs.
    destruct Hinv as [_ Hbel].
    rewrite (ids_split _ _ _ Hl), Hu. unfold ids. simpl.
    rewrite fmap_app, <- !app_assoc. simpl.
    rewrite Forall_app in Habs. destruct Habs as [Hb Ha].
    rewrite filter_removed_middle; [done| |].
    + rewrite list_elem_of_fmap. intros (v & -> & Hv).
      rewrite Forall_forall in Hb. by apply (Hb v).
    + rewrite not_elem_of_app. split.
      * rewrite list_elem_of_fmap. intros (v & -> & Hv).
        rewrite Forall_forall in Ha. by apply (Ha v).
      * intros Hin. rewrite Forall_forall in Hge. apply Hge in Hin.
        unfold ids_below_counter, ids in Hbel.
        rewrite Forall_fmap, Forall_lookup in Hbel.
        specialize (Hbel _ _ Hl). simpl in Hbel. lia.
Qed.

(** C6: after any sequence of calls on a new service, [findAll]
    returns the collection as it is; its ids are the ids handed out
    by the [create] calls, in the order of these calls, without the
    ids taken out by the [remove] calls that returned; [create] puts
    its record at the end, [update] replaces one record at its index
    and changes no id, and [remove] takes one record out and leaves
    the records before and after it in their order. *)
Theorem list_keeps_insertion_order (cs : list call) :
  let s := exec cs init in
  findAll s = (Return (users s), s) ∧
  ids s = filter (λ i, i ∉ removed (trace cs init)) (created (trace cs init)) ∧
  (∀ d, ∃ u s', create d s = (Return u, s') ∧ users s' = users s ++ [u]) ∧
  (∀ i dto new s', update i dto s = (Return new, s') →
     ∃ n old, users s !! n = Some old ∧ User.id old = i ∧ User.id new = i ∧
              users s' = <[n := new]> (users s) ∧ ids s' = ids s) ∧
  (∀ i s', remove i s = (Return (), s') →
     ∃ n old, users s !! n = Some old ∧ User.id old = i ∧
              users s = take n (users s) ++ old :: drop (S n) (users s) ∧
              users s' = take n (users s) ++ drop (S n) (users s)).
Proof.
  intros s. split_and!.
  - done.
  - unfold s. by rewrite ids_exec by apply invariant_init.
  - intros d. eexists _, _. split; [apply create_eq|done].
  - intros i dto new s' Hu.
    destruct (update_cases i dto s) as [(_ & Hu')|(n & old & Hfirst & Hu')];
      rewrite Hu' in Hu; [done|].
    injection Hu as <- <-. pose proof (first_at_id _ _ _ _ Hfirst) as [Hl Hid].
    exists n, old. split_and!; try done. unfold ids. simpl. by apply ids_update.
  - intros i s' Hr.
    destruct (remove_cases i s) as [(_ & Hr')|(n & old & Hfirst & Hr')];
      rewrite Hr' in Hr; [done|].
    injection Hr as <-. pose proof (first_at_id _ _ _ _ Hfirst) as [Hl Hid].
    exists n, old. split_and!; try done. by eapply first_at_split.
Qed.

Lemma list_keeps_insertion_order_witness :
  ids (exec session init) = filter (λ i, i ∉ [2]) [1; 2; 3] ∧
  (∃ n old, users (exec session init) !! n = Some old ∧ User.id old = 1 ∧
            User.id (User.mk 1 "J" "john@example.com") = 1 ∧
            users (update 1 (rename "J") (exec session init)).2 =
              <[n := User.mk 1 "J" "john@example.com"]> (users (exec session init)) ∧
            ids (update 1 (rename "J") (exec session init)).2 = ids (exec session init)) ∧
  (∃ n old, users (exec session init) !! n = Some old ∧ User.id old = 3 ∧
            users (exec session init) =
              take n (users (exec session init)) ++
              old :: drop (S n) (users (exec session init)) ∧
            users (remove 3 (exec session init)).2 =
              take n (users (exec session init)) ++ drop (S n) (users (exec session init))).
Proof.
  destruct (list_keeps_insertion_order session) as (_ & Hids & _ & Hupd & Hrem).
  split_and!.
  - exact Hids.
  - apply (Hupd 1 (rename "J")). reflexivity.
  - apply (Hrem 3). reflexivity.
Defined.

End UserServiceFacts.

(** ** Part 2: references *)

Section Resolve.
Context {A B : Type} (f : A → option B) (q : A → bool) (p : B → bool).
Hypothesis q_p : ∀ x y, f x = Some y → q x = p y.

Lemma resolve_all (l : list A) :
  Forall (λ x, is_Some (f x)) l → Forall2 (λ x y, f x = Some y) l (omap f l).
Proof.
  induction 1 as [|x l [y Hy] _ IH]; simpl; [constructor|].
  rewrite Hy. by constructor.
Qed.

Lemma resolve_omap (l : list A) (k : list B) :
  Forall2 (λ x y, f x = Some y) l k → omap f l = k.
Proof.
  induction 1 as [|x y l k Hxy _ IH]; simpl; [done|].
  rewrite Hxy. simpl. f_equal. exact IH.
Qed.

Lemma resolve_is_Some (l : list A) (k : list B) :
  Forall2 (λ x y, f x = Some y) l k → Forall (λ x, is_Some (f x)) l.
Proof. induction 1; constructor; eauto. Qed.

Lemma resolve_findIndex_from (n : Z) (l : list A) (k : list B) :
  Forall2 (λ x y, f x = Some y) l k → findIndex_from q n l = findIndex_from p n k.
Proof.
  intros H. revert n. induction H as [|x y l k Hxy _ IH]; intros n; simpl; [done|].
  rewrite (q_p _ _ Hxy). by rewrite IH.
Qed.

Lemma resolve_find (l : list A) (k : list B) :
  Forall2 (λ x y, f x = Some y) l k → find q l ≫= f = find p k.
Proof.
  induction 1 as [|x y l k Hxy _ IH]; simpl; [done|].
  rewrite (q_p _ _ Hxy). by destruct (p y).
Qed.

Lemma resolve_find_is_Some (l : list A) (k : list B) (x : A) :
  Forall2 (λ x y, f x = Some y) l k → find q l = Some x → is_Some (f x).
Proof.
  induction 1 as [|x0 y l k Hxy _ IH]; simpl; [done|].
  destruct (q x0); [intros [= <-]; eauto | done].
Qed.
End Resolve.

Module UserServiceRefFacts.
Import UserServiceRef.

Lemma alloc_fresh (o : object) (h : gmap ref object) : h !! (alloc o h).1 = None.
Proof. simpl. apply not_elem_of_dom, is_fresh. Qed.

Lemma user_at_insert_user (h : gmap ref object) (r r' : ref) (u : User.t) :
  user_at (<[r := ObjUser u]> h) r' = if decide (r = r') then Some u else user_at h r'.
Proof.
  unfold user_at. destruct (decide (r = r')) as [->|Hne].
  - by rewrite lookup_insert_eq.
  - by rewrite lookup_insert_ne.
Qed.

Lemma user_at_insert_array (h : gmap ref object) (r r' : ref) (elements : list ref) :
  user_at (<[r := ObjArray elements]> h) r' = if decide (r = r') then None else user_at h r'.
Proof.
  unfold user_at. destruct (decide (r = r')) as [->|Hne].
  - by rewrite lookup_insert_eq.
  - by rewrite lookup_insert_ne.
Qed.

Lemma array_at_insert_array (h : gmap ref object) (r : ref) (elements : list ref) :
  array_at (<[r := ObjArray elements]> h) r = elements.
Proof. unfold array_at. by rewrite lookup_insert_eq. Qed.

Lemma array_at_insert_ne (h : gmap ref object) (r r' : ref) (o : object) :
  r ≠ r' → array_at (<[r := o]> h) r' = array_at h r'.
Proof. intros Hne. unfold array_at. by rewrite lookup_insert_ne. Qed.

Lemma user_at_is_Some (h : gmap ref object) (r : ref) :
  is_Some (user_at h r) → is_Some (h !! r).
Proof. unfold user_at. destruct (h !! r); [eauto | by intros [? ?]]. Qed.

Lemma has_id_resolves (h : gmap ref object) (i : Z) (r : ref) (u : User.t) :
  user_at h r = Some u → has_id h i r = UserService.has_id i u.
Proof. intros Hu. unfold has_id. by rewrite Hu. Qed.

(** In a well-formed state the array resolves to the records. *)
Lemma well_formed_resolves (s : t) :
  well_formed s →
  Forall2 (λ r u, user_at (heap s) r = Some u) (array_at (heap s) (users s)) (records s).
Proof. intros [_ Hall]. by apply resolve_all. Qed.

Lemma well_formed_init : well_formed init.
Proof.
  split.
  - eexists. unfold init. simpl. apply lookup_insert_eq.
  - unfold init. simpl. unfold array_at. rewrite lookup_insert_eq. constructor.
Qed.

Lemma well_formed_array (s : t) :
  well_formed s → heap s !! users s = Some (ObjArray (array_at (heap s) (users s))).
Proof. intros [[elements H] _]. unfold array_at. by rewrite H. Qed.

(** A state put together from a heap whose array resolves to [k]. *)
Lemma resolved_state (h : gmap ref object) (a : ref) (c : Z)
    (l : list ref) (k : list User.t) :
  h !! a = Some (ObjArray l) →
  Forall2 (λ r u, user_at h r = Some u) l k →
  well_formed (mk h a c) ∧ array_at h a = l ∧ view (mk h a c) = UserService.mk k c.
Proof.
  intros Ha Hres.
  assert (array_at h a = l) as Harr by (unfold array_at; by rewrite Ha).
  split_and!.
  - split; simpl; [eauto|]. rewrite Harr. by eapply resolve_is_Some.
  - done.
  - unfold view, records. simpl. rewrite Harr. f_equal. by apply resolve_omap.
Qed.

(** Writing an object at a reference that is unused, or that holds
    the array, does not change what the user references resolve to. *)
Lemma resolves_insert (h : gmap ref object) (r0 : ref) (o : object)
    (l : list ref) (k : list User.t) :
  user_at h r0 = None →
  Forall2 (λ r u, user_at h r = Some u) l k →
  Forall2 (λ r u, user_at (<[r0 := o]> h) r = Some u) l k.
Proof.
  intros Hr0 Hres. eapply Forall2_impl; [exact Hres|]. simpl. intros r u Hu.
  unfold user_at in *. rewrite lookup_insert_ne; [done|]. intros <-. congruence.
Qed.

Lemma user_at_fresh (o : object) (h : gmap ref object) : user_at h (alloc o h).1 = None.
Proof. unfold user_at. by rewrite alloc_fresh. Qed.

Lemma user_at_array (h : gmap ref object) (a : ref) (l : list ref) :
  h !! a = Some (ObjArray l) → user_at h a = None.
Proof. intros Ha. unfold user_at. by rewrite Ha. Qed.

Lemma fresh_ne (o : object) (h : gmap ref object) (a : ref) :
  is_Some (h !! a) → (alloc o h).1 ≠ a.
Proof. intros [x Hx] Heq. rewrite <- Heq, alloc_fresh in Hx. done. Qed.

(** *** Each method shows the value semantics of Part 1 *)

Lemma create_view (dto : CreateUserDto.t) (s : t) :
  well_formed s →
  ∃ r s', create dto s = (Return r, s') ∧ well_formed s' ∧ users s' = users s ∧
          user_at (heap s') r = Some (UserService.new_user dto (view s)) ∧
          array_at (heap s') (users s') = array_at (heap s) (users s) ++ [r] ∧
          view s' = (UserService.create dto (view s)).2.
Proof.
  intros Hwf. pose proof (well_formed_array s Hwf) as Harr.
  pose proof (well_formed_resolves s Hwf) as Hres.
  set (u := UserService.new_user dto (view s)).
  set (r := (alloc (ObjUser u) (heap s)).1).
  assert (r ≠ users s) as Hne by (apply fresh_ne; eauto).
  set (h1 := <[r := ObjUser u]> (heap s)).
  set (l := array_at (heap s) (users s)) in *.
  set (h2 := <[users s := ObjArray (l ++ [r])]> h1).
  assert (create dto s = (Return r, mk h2 (users s) (currentId s + 1))) as Hc.
  { unfold create, alloc, push. simpl. unfold h2, h1, l, r, u. simpl.
    by rewrite array_at_insert_ne. }
  assert (user_at h2 r = Some u) as Hr.
  { unfold h2, h1. rewrite user_at_insert_array, decide_False by done.
    by rewrite user_at_insert_user, decide_True. }
  destruct (resolved_state h2 (users s) (currentId s + 1) (l ++ [r]) (records s ++ [u]))
    as (Hwf' & Harr' & Hview).
  { apply lookup_insert_eq. }
  { apply Forall2_app; [|by repeat constructor].
    apply resolves_insert.
    - unfold h1. rewrite user_at_insert_user, decide_False by done.
      by eapply user_at_array.
    - apply resolves_insert; [apply user_at_fresh | done]. }
  exists r, (mk h2 (users s) (currentId s + 1)). by split_and!.
Qed.

Lemma findAll_view (s : t) :
  findAll s = (Return (users s), s) ∧
  UserService.findAll (view s) = (Return (records s), view s).
Proof. done. Qed.

Lemma findOne_view (i : Z) (s : t) :
  well_formed s →
  (findOne i s = (Throw (NotFoundException i), s) ∧
   UserService.findOne i (view s) = (Throw (NotFoundException i), view s)) ∨
  (∃ r u, findOne i s = (Return r, s) ∧ user_at (heap s) r = Some u ∧
          r ∈ array_at (heap s) (users s) ∧
          UserService.findOne i (view s) = (Return u, view s)).
Proof.
  intros Hwf. pose proof (well_formed_resolves s Hwf) as Hres.
  pose proof (resolve_find _ _ _ (has_id_resolves (heap s) i) _ _ Hres) as Hfind.
  unfold findOne, UserService.findOne. simpl.
  destruct (find (has_id (heap s) i) _) as [r|] eqn:Hr; simpl in Hfind.
  - right. destruct (user_at (heap s) r) as [u|] eqn:Hu.
    + exists r, u. rewrite <- Hfind. split_and!; try done.
      clear -Hr. induction (array_at (heap s) (users s)) as [|x l IH]; [done|].
      simpl in Hr. destruct (has_id (heap s) i x).
      * injection Hr as ->. left.
      * right. by apply IH.
    + destruct (resolve_find_is_Some _ (has_id (heap s) i) _ _ _ Hres Hr). congruence.
  - left. by rewrite <- Hfind.
Qed.

Lemma records_lookup (s : t) (n : nat) :
  well_formed s →
  records s !! n = array_at (heap s) (users s) !! n ≫= user_at (heap s).
Proof.
  intros Hwf. pose proof (well_formed_resolves s Hwf) as Hres.
  destruct (array_at (heap s) (users s) !! n) as [r|] eqn:Hr; simpl.
  - destruct (Forall2_lookup_l _ _ _ _ _ Hres Hr) as (u & -> & Hu). done.
  - apply lookup_ge_None. rewrite <- (Forall2_length _ _ _ Hres).
    by apply lookup_ge_None.
Qed.

Lemma update_view (i : Z) (dto : UpdateUserDto.t) (s : t) :
  well_formed s →
  (update i dto s = (Throw (NotFoundException i), s) ∧
   UserService.update i dto (view s) = (Throw (NotFoundException i), view s)) ∨
  (∃ r s' n u, update i dto s = (Return r, s') ∧ well_formed s' ∧ users s' = users s ∧
               user_at (heap s') r = Some u ∧
               array_at (heap s) (users s) !! n ≫= user_at (heap s) ≠ None ∧
               array_at (heap s') (users s') = <[n := r]> (array_at (heap s) (users s)) ∧
               UserService.update i dto (view s) = (Return u, view s')).
Proof.
  intros Hwf. pose proof (well_formed_array s Hwf) as Harr.
  pose proof (well_formed_resolves s Hwf) as Hres.
  pose proof (resolve_findIndex_from _ _ _ (has_id_resolves (heap s) i) 0 _ _ Hres) as Hidx.
  fold (findIndex (has_id (heap s) i) (array_at (heap s) (users s))) in Hidx.
  fold (findIndex (UserService.has_id i) (records s)) in Hidx.
  unfold update, UserService.update. simpl. rewrite Hidx.
  destruct (findIndex_cases (UserService.has_id i) (records s))
    as [(-> & _)|(n & old & -> & _ & (Hn & _))]; [by left|].
  right. replace (Z.of_nat n =? -1) with false by (symmetry; apply Z.eqb_neq; lia).
  rewrite Nat2Z.id, Hn.
  destruct (Forall2_lookup_r _ _ _ _ _ Hres Hn) as (r0 & Hr0 & Hold).
  rewrite Hr0. simpl. rewrite Hold.
  set (u := UserService.merge old dto).
  set (r := fresh (dom (heap s))).
  assert (r ≠ users s) as Hne by (apply (fresh_ne (ObjUser u)); eauto).
  rewrite array_at_insert_ne by done.
  set (h1 := <[r := ObjUser u]> (heap s)).
  set (l := array_at (heap s) (users s)) in *.
  set (h2 := <[users s := ObjArray (assign l n r)]> h1).
  assert (user_at h2 r = Some u) as Hr.
  { unfold h2, h1. rewrite user_at_insert_array, decide_False by done.
    by rewrite user_at_insert_user, decide_True. }
  destruct (resolved_state h2 (users s) (currentId s) (<[n := r]> l)
              (<[n := u]> (records s))) as (Hwf' & Harr' & Hview).
  { apply lookup_insert_eq. }
  { apply Forall2_insert; [|done].
    apply resolves_insert.
    - unfold h1. rewrite user_at_insert_user, decide_False by done.
      by eapply user_at_array.
    - apply resolves_insert; [apply (user_at_fresh (ObjUser u)) | done]. }
  exists r, (mk h2 (users s) (currentId s)), n, u. split_and!; try done.
  - by rewrite Hr0; simpl; rewrite Hold.
  - unfold assign. by rewrite Hview.
Qed.

Lemma remove_view (i : Z) (s : t) :
  well_formed s →
  (remove i s = (Throw (NotFoundException i), s) ∧
   UserService.remove i (view s) = (Throw (NotFoundException i), view s)) ∨
  (∃ s', remove i s = (Return (), s') ∧ well_formed s' ∧ users s' = users s ∧
         UserService.remove i (view s) = (Return (), view s')).
Proof.
  intros Hwf. pose proof (well_formed_array s Hwf) as Harr.
  pose proof (well_formed_resolves s Hwf) as Hres.
  pose proof (resolve_findIndex_from _ _ _ (has_id_resolves (heap s) i) 0 _ _ Hres) as Hidx.
  fold (findIndex (has_id (heap s) i) (array_at (heap s) (users s))) in Hidx.
  fold (findIndex (UserService.has_id i) (records s)) in Hidx.
  unfold remove, UserService.remove. simpl. rewrite Hidx.
  destruct (findIndex_cases (UserService.has_id i) (records s))
    as [(-> & _)|(n & old & -> & _ & (Hn & _))]; [by left|].
  right. replace (Z.of_nat n =? -1) with false by (symmetry; apply Z.eqb_neq; lia).
  rewrite Nat2Z.id.
  set (l := array_at (heap s) (users s)) in *.
  set (h2 := <[users s := ObjArray (splice l n 1)]> (heap s)).
  destruct (resolved_state h2 (users s) (currentId s) (splice l n 1)
              (splice (records s) n 1)) as (Hwf' & Harr' & Hview).
  { apply lookup_insert_eq. }
  { apply resolves_insert; [by eapply user_at_array|].
    unfold splice. apply Forall2_app; [by apply Forall2_take | by apply Forall2_drop]. }
  exists (mk h2 (users s) (currentId s)). split_and!; try done. by rewrite Hview.
Qed.

(** One call: the state stays well-formed, its view is the state that
    Part 1 computes, and the caller reads the outcome that Part 1
    computes. *)
Lemma step_view (c : UserService.call) (s : t) :
  well_formed s →
  well_formed (step c s).2 ∧
  view (step c s).2 = (UserService.step c (view s)).2 ∧
  read (step c s).2 (step c s).1 = Some (UserService.step c (view s)).1.
Proof.
  intros Hwf. destruct c as [dto| |i|i dto|i]; unfold step, UserService.step.
  - destruct (create_view dto s Hwf) as (r & s' & Hc & Hwf' & _ & Hr & _ & Hview).
    unfold returning, UserService.returning. rewrite Hc.
    rewrite UserServiceFacts.create_eq in *. simpl. by rewrite Hr.
  - done.
  - unfold returning, UserService.returning.
    destruct (findOne_view i s Hwf) as [(-> & ->)|(r & u & -> & Hr & _ & ->)];
      simpl; [done|]. by rewrite Hr.
  - unfold returning, UserService.returning.
    destruct (update_view i dto s Hwf)
      as [(-> & ->)|(r & s' & n & u & -> & Hwf' & _ & Hr & _ & _ & ->)];
      simpl; [done|]. by rewrite Hr.
  - unfold returning, UserService.returning.
    destruct (remove_view i s Hwf) as [(-> & ->)|(s' & -> & Hwf' & _ & ->)]; done.
Qed.

(** Any sequence of calls from a well-formed state: the view of the
    state it leads to and the log the caller reads are those of
    Part 1. *)
Lemma exec_view (cs : list UserService.call) (s : t) :
  well_formed s →
  well_formed (exec cs s) ∧
  view (exec cs s) = UserService.exec cs (view s) ∧
  trace cs s = (λ e, (e.1, Some e.2)) <$> UserService.trace cs (view s).
Proof.
  revert s. induction cs as [|c cs IH]; intros s Hwf; simpl; [done|].
  destruct (step_view c s Hwf) as (Hwf' & Hview & Hread).
  destruct (IH _ Hwf') as (Hwf'' & Hview' & Htrace).
  rewrite Hview', Htrace, Hview, Hread. done.
Qed.

Lemma view_init : view init = UserService.init.
Proof. reflexivity. Qed.

(** *** Writes of a caller through a reference *)

Lemma user_at_write (h : gmap ref object) (r r' : ref) (a : assignment) :
  user_at (alter (write_object a) r h) r' =
    if decide (r = r') then assigned a <$> user_at h r' else user_at h r'.
Proof.
  unfold user_at. destruct (decide (r = r')) as [->|Hne].
  - rewrite lookup_alter_eq. by destruct (h !! r') as [[]|].
  - by rewrite lookup_alter_ne.
Qed.

Lemma array_at_write (h : gmap ref object) (r r' : ref) (a : assignment) :
  array_at (alter (write_object a) r h) r' = array_at h r'.
Proof.
  unfold array_at. destruct (decide (r = r')) as [->|Hne].
  - rewrite lookup_alter_eq. by destruct (h !! r') as [[]|].
  - by rewrite lookup_alter_ne.
Qed.

Lemma well_formed_write (r : ref) (a : assignment) (s : t) :
  well_formed s → well_formed (write r a s).
Proof.
  intros Hwf. pose proof (well_formed_array s Hwf) as Harr. destruct Hwf as [_ Hall].
  split; simpl.
  - exists (array_at (heap s) (users s)).
    destruct (decide (r = users s)) as [->|Hne].
    + by rewrite lookup_alter_eq, Harr.
    + by rewrite lookup_alter_ne.
  - rewrite array_at_write. eapply Forall_impl; [exact Hall|]. simpl.
    intros r' [u Hu]. rewrite user_at_write, Hu. case_decide; simpl; eauto.
Qed.

(** A write through a reference that sits in the array shows in the
    records of the service. *)
Lemma write_shows (s : t) (n : nat) (r : ref) :
  well_formed s → array_at (heap s) (users s) !! n = Some r →
  ∃ u, records s !! n = Some u ∧
       ∀ a, records (write r a s) !! n = Some (assigned a u).
Proof.
  intros Hwf Hn. pose proof (well_formed_resolves s Hwf) as Hres.
  destruct (Forall2_lookup_l _ _ _ _ _ Hres Hn) as (u & Hu & Hr).
  exists u. split; [done|]. intros a.
  rewrite records_lookup by by apply well_formed_write.
  simpl. rewrite array_at_write, Hn. simpl.
  by rewrite user_at_write, decide_True, Hr.
Qed.

Lemma pop_shows (s : t) :
  well_formed s →
  records (pop (users s) s) = take (length (records s) - 1) (records s).
Proof.
  intros Hwf. pose proof (well_formed_array s Hwf) as Harr.
  pose proof (well_formed_resolves s Hwf) as Hres.
  set (l := array_at (heap s) (users s)) in *.
  assert (array_at (heap (pop (users s) s)) (users s) = take (length l - 1) l) as Hl.
  { unfold array_at. simpl. by rewrite lookup_alter_eq, Harr. }
  unfold records at 1. simpl users. rewrite Hl. apply resolve_omap.
  rewrite <- (Forall2_length _ _ _ Hres). apply Forall2_take.
  eapply Forall2_impl; [exact Hres|]. simpl. intros r u Hu.
  unfold user_at in *. destruct (decide (users s = r)) as [<-|Hne].
  - by rewrite Harr in Hu.
  - by rewrite lookup_alter_ne.
Qed.

Lemma elem_of_lookup_ref (l : list ref) (r : ref) : r ∈ l → ∃ n, l !! n = Some r.
Proof. apply list_elem_of_lookup_1. Qed.

(** C8, as the code has it: the methods hand out the references that
    the service itself holds.  In a well-formed state, the reference
    that [create], [findOne] or [update] returns sits in the array of
    the state the call leaves behind, at some index [n], and an
    assignment of the caller to a property of the object behind it
    changes record [n] of the service accordingly; the reference that
    [findAll] returns is the reference in the field [users], and a
    [pop()] of the caller on it takes the last record out of the
    service. *)
Theorem callers_receive_aliases (s : t) :
  well_formed s →
  (∀ dto, ∃ r s' n u,
     create dto s = (Return r, s') ∧
     array_at (heap s') (users s') !! n = Some r ∧ records s' !! n = Some u ∧
     ∀ a, records (write r a s') !! n = Some (assigned a u)) ∧
  (∀ r s', findAll s = (Return r, s') →
     s' = s ∧ r = users s ∧
     records (pop r s') = take (length (records s') - 1) (records s')) ∧
  (∀ i r s', findOne i s = (Return r, s') →
     ∃ n u, array_at (heap s') (users s') !! n = Some r ∧ records s' !! n = Some u ∧
            ∀ a, records (write r a s') !! n = Some (assigned a u)) ∧
  (∀ i dto r s', update i dto s = (Return r, s') →
     ∃ n u, array_at (heap s') (users s') !! n = Some r ∧ records s' !! n = Some u ∧
            ∀ a, records (write r a s') !! n = Some (assigned a u)).
Proof.
  intros Hwf. split_and!.
  - intros dto.
    destruct (create_view dto s Hwf) as (r & s' & Hc & Hwf' & _ & _ & Harr & _).
    assert (array_at (heap s') (users s') !! length (array_at (heap s) (users s)) = Some r)
      as Hn by (rewrite Harr; apply list_lookup_middle; done).
    destruct (write_shows s' _ r Hwf' Hn) as (u & Hu & Hw).
    by exists r, s', (length (array_at (heap s) (users s))), u.
  - intros r s' [= <- <-]. split_and!; try done. by apply pop_shows.
  - intros i r s' Hf.
    destruct (findOne_view i s Hwf) as [(Hf' & _)|(r' & u' & Hf' & _ & Hin & _)];
      rewrite Hf' in Hf; [done|].
    injection Hf as <- <-. apply elem_of_lookup_ref in Hin as [n Hn].
    destruct (write_shows s n r' Hwf Hn) as (u & Hu & Hw). by exists n, u.
  - intros i dto r s' Hu.
    destruct (update_view i dto s Hwf)
      as [(Hu' & _)|(r' & s1 & n & u' & Hu' & Hwf' & _ & _ & Hold & Harr & _)];
      rewrite Hu' in Hu; [done|].
    injection Hu as <- <-.
    assert (array_at (heap s1) (users s1) !! n = Some r') as Hn.
    { rewrite Harr. apply list_lookup_insert_eq.
      destruct (array_at (heap s) (users s) !! n) eqn:E; [|done].
      by eapply lookup_lt_Some. }
    destruct (write_shows s1 n r' Hwf' Hn) as (u & Hu & Hw). by exists n, u.
Qed.

Lemma well_formed_one_user : well_formed one_user.
Proof.
  destruct (create_view UserService.john init well_formed_init)
    as (r & s' & Hc & Hwf & _).
  unfold one_user. by rewrite Hc.
Qed.

Lemma callers_receive_aliases_witness :
  ∃ n u, array_at (heap one_user) (users one_user) !! n = Some 2%positive ∧
         records one_user !! n = Some u ∧
         ∀ a, records (write 2%positive a one_user) !! n = Some (assigned a u).
Proof.
  refine (proj1 (proj2 (proj2 (callers_receive_aliases one_user _)))
            1 2%positive one_user _).
  - split.
    + exists [2%positive]. vm_compute. reflexivity.
    + vm_compute. repeat econstructor.
  - vm_compute. reflexivity.
Defined.

(** The four methods at work on [one_user]: the caller's write shows
    in the service each time. *)
Lemma aliases_of_one_user :
  (∃ r, (create UserService.john init).1 = Return r ∧
        view (write r (SetName "X") one_user) ≠ view one_user) ∧
  (∃ r, (findAll one_user).1 = Return r ∧
        view (pop r one_user) ≠ view one_user) ∧
  (∃ r, (findOne 1 one_user).1 = Return r ∧
        view (write r (SetId 7) one_user) ≠ view one_user) ∧
  (∃ r, (update 1 (UserService.rename "J") one_user).1 = Return r ∧
        view (write r (SetEmail "x") (update 1 (UserService.rename "J") one_user).2) ≠
          view (update 1 (UserService.rename "J") one_user).2).
Proof.
  split_and!.
  - exists 2%positive. split; [reflexivity|]. vm_compute. discriminate.
  - exists 1%positive. split; [reflexivity|]. vm_compute. discriminate.
  - exists 2%positive. split; [reflexivity|]. vm_compute. discriminate.
  - exists 3%positive. split; [reflexivity|]. vm_compute. discriminate.
Qed.

(** C8, as the specification words it, fails: the record reference
    that [create(john)] returns on a new service is the one stored in
    the array, and the caller's [r.name = "X"] changes the record that
    the service holds. *)
Lemma callers_receive_copies_fails : ¬ callers_receive_copies.
Proof.
  intros Hcopies.
  destruct (Hcopies init well_formed_init) as (Hcreate & _).
  specialize (Hcreate UserService.john 2%positive one_user (SetName "X") eq_refl).
  vm_compute in Hcreate. discriminate.
Qed.

End UserServiceRefFacts.

(** ** Laws of the methods (value semantics) *)

Module UserServiceLaws.
Import UserService UserServiceFacts Laws.

Lemma state_eta (s : t) : {| users := users s; currentId := currentId s |} = s.
Proof. by destruct s. Qed.

Lemma absent_or_first (i : Z) (s : t) :
  absent i s ∨ ∃ n u, first_at (has_id i) (users s) n u.
Proof. destruct (findOne_cases i s) as [(? & _)|(n & u & ? & _)]; eauto. Qed.

Lemma findOne_absent (i : Z) (s : t) :
  absent i s → findOne i s = (Throw (NotFoundException i), s).
Proof.
  intros Habs. destruct (findOne_cases i s) as [(_ & Hf)|(n & u & Hfirst & _)]; [done|].
  by destruct (absent_no_first i s n u).
Qed.

Lemma update_absent (i : Z) (dto : UpdateUserDto.t) (s : t) :
  absent i s → update i dto s = (Throw (NotFoundException i), s).
Proof.
  intros Habs. destruct (update_cases i dto s) as [(_ & Hu)|(n & u & Hfirst & _)]; [done|].
  by destruct (absent_no_first i s n u).
Qed.

Lemma findOne_at (i : Z) (s : t) (n : nat) (u : User.t) :
  first_at (has_id i) (users s) n u → findOne i s = (Return u, s).
Proof.
  intros Hfirst. destruct (findOne_cases i s) as [(Habs & _)|(n' & u' & Hfirst' & ->)].
  - by destruct (absent_no_first i s n u).
  - by destruct (first_at_unique _ _ _ _ _ _ Hfirst Hfirst') as [_ ->].
Qed.

Lemma update_at (i : Z) (dto : UpdateUserDto.t) (s : t) (n : nat) (u : User.t) :
  first_at (has_id i) (users s) n u →
  update i dto s =
    (Return (merge u dto),
     {| users := <[n := merge u dto]> (users s); currentId := currentId s |}).
Proof.
  intros Hfirst. destruct (update_cases i dto s) as [(Habs & _)|(n' & u' & Hfirst' & ->)].
  - by destruct (absent_no_first i s n u).
  - by destruct (first_at_unique _ _ _ _ _ _ Hfirst Hfirst') as [-> ->].
Qed.

Lemma remove_at (i : Z) (s : t) (n : nat) (u : User.t) :
  first_at (has_id i) (users s) n u →
  remove i s =
    (Return (),
     {| users := take n (users s) ++ drop (S n) (users s); currentId := currentId s |}).
Proof.
  intros Hfirst. destruct (remove_cases i s) as [(Habs & _)|(n' & u' & Hfirst' & ->)].
  - by destruct (absent_no_first i s n u).
  - by destruct (first_at_unique _ _ _ _ _ _ Hfirst Hfirst') as [-> _].
Qed.

Lemma present_first (i : Z) (s : t) (u0 : User.t) :
  u0 ∈ users s → User.id u0 = i → ∃ n u, first_at (has_id i) (users s) n u.
Proof.
  intros Hin Hid. destruct (absent_or_first i s) as [Habs|?]; [|done].
  by destruct (present_not_absent i s u0).
Qed.

(** The record written at the index of the first match is the first
    match of the new array when it matches too. *)
Lemma first_at_insert {A : Type} (p : A → bool) (xs : list A) (n : nat) (x y : A) :
  first_at p xs n x → p y = true → first_at p (<[n := y]> xs) n y.
Proof.
  intros Hfirst Hy. pose proof (first_at_lt _ _ _ _ Hfirst) as Hlt.
  destruct Hfirst as (_ & _ & Hbefore). split_and!.
  - by apply list_lookup_insert_eq.
  - done.
  - by rewrite take_insert_ge.
Qed.

Lemma merge_has_id (i : Z) (u : User.t) (dto : UpdateUserDto.t) :
  has_id i (merge u dto) = has_id i u.
Proof. done. Qed.

Lemma merge_overlay (u : User.t) (d1 d2 : UpdateUserDto.t) :
  merge (merge u d1) d2 = merge u (overlay d1 d2).
Proof.
  destruct d1 as [[n1|] [e1|]], d2 as [[n2|] [e2|]]; reflexivity.
Qed.

Lemma merge_no_fields (u : User.t) : merge u no_fields = u.
Proof. by destruct u. Qed.

Lemma find_snoc_other {A : Type} (p : A → bool) (xs : list A) (y : A) :
  p y = false → find p (xs ++ [y]) = find p xs.
Proof.
  intros Hy. induction xs as [|x xs IH]; simpl; [by rewrite Hy|].
  by destruct (p x).
Qed.

Lemma find_insert_other {A : Type} (p : A → bool) (xs : list A) (n : nat) (x y : A) :
  xs !! n = Some x → p x = false → p y = false → find p (<[n := y]> xs) = find p xs.
Proof.
  intros Hn Hx Hy. revert n Hn. induction xs as [|a xs IH]; intros n Hn; [done|].
  destruct n as [|n]; simpl in *.
  - injection Hn as ->. by rewrite Hx, Hy.
  - destruct (p a); [done|]. by apply IH.
Qed.

Lemma find_delete_other {A : Type} (p : A → bool) (xs : list A) (n : nat) (x : A) :
  xs !! n = Some x → p x = false → find p (take n xs ++ drop (S n) xs) = find p xs.
Proof.
  intros Hn Hx. revert n Hn. induction xs as [|a xs IH]; intros n Hn; [done|].
  destruct n as [|n]; simpl in *.
  - injection Hn as ->. rewrite Hx. by rewrite drop_0.
  - destruct (p a); [done|]. by apply IH.
Qed.

Lemma has_id_other (i j : Z) (u : User.t) : i ≠ j → User.id u = i → has_id j u = false.
Proof. intros Hne Hid. apply has_id_false. congruence. Qed.

Lemma sorted_NoDup (l : list Z) : StronglySorted Z.lt l → NoDup l.
Proof.
  induction 1 as [|x l _ IH Hall]; [constructor|].
  apply NoDup_cons. split; [|done].
  intros Hin. rewrite Forall_forall in Hall. specialize (Hall _ Hin). lia.
Qed.

Lemma step_query (c : call) (s : t) : is_query c = true → (step c s).2 = s.
Proof.
  destruct c; try done; intros _; unfold step; rewrite returning_state; try done.
  unfold findOne. by destruct (find _ _).
Qed.

(** *** Laws *)

(** X1: in a reachable state that holds a record with id [i],
    [remove(i)] returns and [findOne(i)], called right after, throws
    [NotFoundException]. *)
Theorem find_after_remove_fails (s : t) (i : Z) (u0 : User.t) :
  reachable s → u0 ∈ users s → User.id u0 = i →
  ∃ s1, remove i s = (Return (), s1) ∧
        findOne i s1 = (Throw (NotFoundException i), s1).
Proof.
  intros Hreach Hin Hid. apply reachable_invariant in Hreach.
  destruct (present_first i s u0 Hin Hid) as (n & u & Hfirst).
  eexists. split; [by eapply remove_at|].
  apply findOne_absent. unfold absent. simpl. by eapply absent_after_removal.
Qed.

Lemma find_after_remove_fails_witness :
  ∃ s1, remove 2 two_users = (Return (), s1) ∧
        findOne 2 s1 = (Throw (NotFoundException 2), s1).
Proof.
  apply (find_after_remove_fails two_users 2 (new_user jane (create john init).2)).
  - by exists [Create john; Create jane].
  - vm_compute. right. left.
  - reflexivity.
Defined.

(** X2: after any sequence of calls on a new service, the ids of the
    records in the collection are pairwise distinct, at least 1 and
    below the counter. *)
Theorem live_ids_distinct_and_in_range (cs : list call) :
  NoDup (ids (exec cs init)) ∧
  Forall (λ i, 1 ≤ i < currentId (exec cs init)) (ids (exec cs init)).
Proof.
  pose proof (invariant_exec cs init invariant_init) as [Hinc Hbel].
  split; [by apply sorted_NoDup|].
  rewrite Forall_forall. intros i Hi. split.
  - rewrite (ids_exec cs init invariant_init) in Hi.
    apply list_elem_of_filter in Hi as [_ Hi]. simpl in Hi.
    pose proof (created_ge cs init) as Hge. rewrite Forall_forall in Hge.
    by apply Hge.
  - unfold ids_below_counter in Hbel. rewrite Forall_forall in Hbel. by apply Hbel.
Qed.



(** X4: two [update] calls on the same id, one after the other, have
    the outcome and leave the state of the one [update] call with the
    overlay [{ ...d1, ...d2 }] of their DTOs, in every state; when the
    id is absent both sides throw. *)
Theorem update_twice_is_overlay (s : t) (i : Z) (d1 d2 : UpdateUserDto.t) :
  update i d2 (update i d1 s).2 = update i (overlay d1 d2) s.
Proof.
  destruct (absent_or_first i s) as [Habs|(n & u & Hfirst)].
  - rewrite (update_absent i d1 s Habs). simpl. by rewrite !update_absent.
  - rewrite (update_at i d1 s n u Hfirst), (update_at i (overlay d1 d2) s n u Hfirst). simpl.
    erewrite (update_at i d2 _ n (merge u d1)).
    + simpl. by rewrite list_insert_insert_eq, merge_overlay.
    + simpl. apply (first_at_insert _ _ _ u); [done|]. rewrite merge_has_id. apply Hfirst.
Qed.

(** X5: [update] is idempotent: the same call repeated right away has
    the same outcome and leaves the same state as the first one. *)
Theorem update_idempotent (s : t) (i : Z) (dto : UpdateUserDto.t) :
  update i dto (update i dto s).2 = update i dto s.
Proof.
  destruct (absent_or_first i s) as [Habs|(n & u & Hfirst)].
  - rewrite (update_absent i dto s Habs). simpl. by rewrite update_absent.
  - rewrite (update_at i dto s n u Hfirst). simpl.
    erewrite (update_at i dto _ n (merge u dto)).
    + simpl. rewrite list_insert_insert_eq, merge_overlay.
      by destruct dto as [[?|] [?|]].
    + simpl. apply (first_at_insert _ _ _ u); [done|]. rewrite merge_has_id. apply Hfirst.
Qed.

(** X6: [update] with a DTO that has no property behaves as [findOne]:
    it throws when the id is absent, and returns the stored record and
    leaves the state as it was otherwise. *)
Theorem update_without_fields_is_find (s : t) (i : Z) :
  update i no_fields s = findOne i s.
Proof.
  destruct (absent_or_first i s) as [Habs|(n & u & Hfirst)].
  - by rewrite update_absent, findOne_absent.
  - rewrite (update_at i no_fields s n u Hfirst), (findOne_at i s n u Hfirst).
    rewrite merge_no_fields, list_insert_id by apply Hfirst. by rewrite state_eta.
Qed.

(** X7: in a reachable state, [create] followed by [remove] of the id
    just handed out gives the collection back as it was; only the
    counter has moved on by one. *)
Theorem remove_after_create_restores (s : t) (dto : CreateUserDto.t) :
  reachable s →
  ∃ u s1, create dto s = (Return u, s1) ∧
          remove (User.id u) s1 =
            (Return (), {| users := users s; currentId := currentId s + 1 |}).
Proof.
  intros Hreach. apply reachable_invariant in Hreach as [_ Hbel].
  eexists _, _. split; [apply create_eq|].
  erewrite (remove_at _ _ (length (users s)) (new_user dto s)).
  - simpl. rewrite take_app_length.
    rewrite drop_ge by (rewrite length_app; simpl; lia).
    by rewrite app_nil_r.
  - simpl. split_and!.
    + by apply list_lookup_middle.
    + apply has_id_true. done.
    + rewrite take_app_length. unfold ids_below_counter, ids in Hbel.
      rewrite Forall_fmap in Hbel. eapply Forall_impl; [exact Hbel|]. simpl.
      intros v Hv. apply has_id_false. lia.
Qed.

Lemma remove_after_create_restores_witness :
  ∃ u s1, create john two_users = (Return u, s1) ∧
          remove (User.id u) s1 =
            (Return (), {| users := users two_users; currentId := currentId two_users + 1 |}).
Proof. apply (remove_after_create_restores two_users john). by exists [Create john; Create jane]. Defined.

(** X8: a call on one id does not disturb the others: [findOne(j)] has
    the same outcome after [update(i, dto)] and after [remove(i)] as
    before, for every [j] other than [i], and the same outcome after
    [create] for every [j] other than the id that [create] hands out. *)
Theorem other_ids_undisturbed (s : t) (i j : Z) (dto : UpdateUserDto.t) (d : CreateUserDto.t) :
  i ≠ j →
  (findOne j (update i dto s).2).1 = (findOne j s).1 ∧
  (findOne j (remove i s).2).1 = (findOne j s).1 ∧
  (currentId s ≠ j → (findOne j (create d s).2).1 = (findOne j s).1).
Proof.
  intros Hne. split_and!.
  - destruct (absent_or_first i s) as [Habs|(n & u & Hfirst)].
    + by rewrite update_absent.
    + rewrite (update_at i dto s n u Hfirst). simpl.
      apply first_at_id in Hfirst as [Hn Hid]. unfold findOne. simpl.
      rewrite (find_insert_other _ _ n u);
        [by destruct (find _ _) | done | by eapply has_id_other |].
      rewrite merge_has_id. by eapply has_id_other.
  - destruct (absent_or_first i s) as [Habs|(n & u & Hfirst)].
    + by rewrite remove_absent.
    + rewrite (remove_at i s n u Hfirst). simpl.
      apply first_at_id in Hfirst as [Hn Hid]. unfold findOne. simpl.
      rewrite (find_delete_other _ _ n u);
        [by destruct (find _ _) | done | by eapply has_id_other].
  - intros Hc. rewrite create_eq. unfold findOne. simpl.
    rewrite find_snoc_other; [by destruct (find _ _)|]. apply has_id_false. done.
Qed.

Lemma other_ids_undisturbed_witness :
  (findOne 2 (update 1 (rename "J") two_users).2).1 = (findOne 2 two_users).1 ∧
  (findOne 2 (remove 1 two_users).2).1 = (findOne 2 two_users).1 ∧
  (currentId two_users ≠ 2 →
   (findOne 2 (create john two_users).2).1 = (findOne 2 two_users).1).
Proof. apply (other_ids_undisturbed two_users 1 2 (rename "J") john). lia. Defined.

(** X9: the reading methods never change the state, so the calls to
    [findAll] and [findOne] can be left out of any sequence of calls
    without changing the state it leads to or the outcome of any other
    call of the sequence. *)
Theorem queries_leave_no_trace (cs : list call) (s : t) :
  exec (commands cs) s = exec cs s ∧
  trace (commands cs) s = filter (λ e, is_query e.1 = false) (trace cs s).
Proof.
  revert s. induction cs as [|c cs IH]; intros s; [done|].
  unfold commands. simpl. rewrite !filter_cons. fold (commands cs). simpl.
  destruct (is_query c) eqn:Hq.
  - rewrite !decide_False by done. rewrite step_query by done. apply IH.
  - rewrite !decide_True by done. simpl. destruct (IH (step c s).2) as [-> ->]. done.
Qed.

End UserServiceLaws.

(** ** Laws of the methods (reference semantics) *)

Section FirstMatch.
Context {A : Type} (p : A → bool).

Lemma first_at_found (xs : list A) (n : nat) (x : A) :
  first_at p xs n x → findIndex p xs = Z.of_nat n ∧ find p xs = Some x.
Proof.
  intros Hfirst.
  destruct (findIndex_cases p xs) as [(_ & _ & Hall)|(m & y & -> & -> & Hfirst')].
  - by destruct (Forall_false_no_first p xs n x).
  - by destruct (first_at_unique _ _ _ _ _ _ Hfirst Hfirst') as [-> ->].
Qed.

Lemma find_first_at (xs : list A) (x : A) :
  find p xs = Some x → ∃ n, first_at p xs n x.
Proof.
  intros Hfind.
  destruct (findIndex_cases p xs) as [(_ & Hnone & _)|(m & y & _ & Hsome & Hfirst)].
  - congruence.
  - exists m. congruence.
Qed.
End FirstMatch.

Section Replace.
Context {A : Type}.

Lemma NoDup_replace (l : list A) (n : nat) (x y : A) :
  NoDup l → l !! n = Some x → y ∉ l →
  NoDup (<[n := y]> l) ∧ x ∉ <[n := y]> l.
Proof.
  intros Hnd Hn Hy. pose proof (lookup_lt_Some _ _ _ Hn) as Hlt.
  rewrite insert_take_drop by done.
  rewrite <- (take_drop_middle _ _ _ Hn) in Hnd, Hy.
  apply NoDup_app in Hnd as (H1 & Hcross & H2).
  apply NoDup_cons in H2 as (Hx2 & H2).
  rewrite not_elem_of_app, not_elem_of_cons in Hy. destruct Hy as (Hy1 & Hyx & Hy2).
  split.
  - apply NoDup_app. split_and!; [done| |by apply NoDup_cons].
    intros z Hz. rewrite not_elem_of_cons. split; [congruence|].
    specialize (Hcross z Hz). rewrite not_elem_of_cons in Hcross. tauto.
  - rewrite not_elem_of_app, not_elem_of_cons. split_and!; [|congruence|done].
    intros Hx1. apply (Hcross x Hx1). left.
Qed.

Lemma NoDup_remove_at (l : list A) (n : nat) (x : A) :
  NoDup l → l !! n = Some x →
  NoDup (take n l ++ drop (S n) l) ∧ x ∉ take n l ++ drop (S n) l.
Proof.
  intros Hnd Hn. rewrite <- (take_drop_middle _ _ _ Hn) in Hnd.
  apply NoDup_app in Hnd as (H1 & Hcross & H2).
  apply NoDup_cons in H2 as (Hx2 & H2).
  split.
  - apply NoDup_app. split_and!; [done| |done].
    intros z Hz. specialize (Hcross z Hz). rewrite not_elem_of_cons in Hcross. tauto.
  - rewrite not_elem_of_app. split; [|done].
    intros Hx1. apply (Hcross x Hx1). left.
Qed.
End Replace.

Module UserServiceRefLaws.
Import UserServiceRef UserServiceRefFacts Laws.

Lemma user_at_insert_keep (h : gmap ref object) (r0 r : ref) (o : object) (u : User.t) :
  user_at h r0 = None → user_at h r = Some u → user_at (<[r0 := o]> h) r = Some u.
Proof.
  intros Hr0 Hr. unfold user_at in *. rewrite lookup_insert_ne; [done|].
  intros <-. congruence.
Qed.

Lemma well_formed_element (s : t) (r : ref) :
  well_formed s → r ∈ array_at (heap s) (users s) → is_Some (user_at (heap s) r).
Proof. intros [_ Hall] Hin. rewrite Forall_forall in Hall. by apply Hall. Qed.

Lemma unused_not_element (s : t) (r : ref) :
  well_formed s → heap s !! r = None → r ∉ array_at (heap s) (users s).
Proof.
  intros Hwf Hr Hin. apply (well_formed_element s r Hwf) in Hin as [u Hu].
  unfold user_at in Hu. by rewrite Hr in Hu.
Qed.

(** The three methods that search, when the first match sits at index
    [n] of the array. *)
Lemma findOne_found (i : Z) (s : t) (n : nat) (r0 : ref) :
  first_at (has_id (heap s) i) (array_at (heap s) (users s)) n r0 →
  findOne i s = (Return r0, s).
Proof.
  intros Hfirst. apply first_at_found in Hfirst as [_ Hfind].
  unfold findOne. by rewrite Hfind.
Qed.

Lemma update_found (i : Z) (dto : UpdateUserDto.t) (s : t) (n : nat) (r0 : ref) :
  well_formed s →
  first_at (has_id (heap s) i) (array_at (heap s) (users s)) n r0 →
  ∃ r1 s', update i dto s = (Return r1, s') ∧ heap s !! r1 = None ∧
           users s' = users s ∧
           array_at (heap s') (users s') = <[n := r1]> (array_at (heap s) (users s)) ∧
           ∀ r u, user_at (heap s) r = Some u → user_at (heap s') r = Some u.
Proof.
  intros Hwf Hfirst. pose proof (well_formed_array s Hwf) as Harr.
  pose proof Hfirst as (Hn & _). apply first_at_found in Hfirst as [Hidx _].
  destruct (well_formed_element s r0 Hwf) as [u Hu]; [by eapply list_elem_of_lookup_2|].
  set (r1 := fresh (dom (heap s))).
  assert (heap s !! r1 = None) as Hfresh by apply (alloc_fresh (ObjUser u)).
  assert (r1 ≠ users s) as Hne by (intros Heq; rewrite Heq, Harr in Hfresh; done).
  eexists r1, _. split.
  { unfold update. rewrite Hidx.
    replace (Z.of_nat n =? -1) with false by (symmetry; apply Z.eqb_neq; lia).
    rewrite Nat2Z.id, Hn. simpl. rewrite Hu. simpl. reflexivity. }
  simpl. split_and!; try done.
  - rewrite array_at_insert_array. fold r1. by rewrite array_at_insert_ne.
  - intros r v Hr. apply user_at_insert_keep.
    + fold r1. unfold user_at. rewrite lookup_insert_ne by done. by rewrite Harr.
    + apply user_at_insert_keep; [|done]. unfold user_at. fold r1. by rewrite Hfresh.
Qed.

Lemma remove_found (i : Z) (s : t) (n : nat) (r0 : ref) :
  well_formed s →
  first_at (has_id (heap s) i) (array_at (heap s) (users s)) n r0 →
  ∃ s', remove i s = (Return (), s') ∧ users s' = users s ∧
        array_at (heap s') (users s') =
          take n (array_at (heap s) (users s)) ++ drop (S n) (array_at (heap s) (users s)) ∧
        ∀ r u, user_at (heap s) r = Some u → user_at (heap s') r = Some u.
Proof.
  intros Hwf Hfirst. pose proof (well_formed_array s Hwf) as Harr.
  apply first_at_found in Hfirst as [Hidx _].
  eexists. split.
  { unfold remove. rewrite Hidx.
    replace (Z.of_nat n =? -1) with false by (symmetry; apply Z.eqb_neq; lia).
    rewrite Nat2Z.id. reflexivity. }
  simpl. split_and!; try done.
  - rewrite array_at_insert_array. unfold splice. by rewrite Nat.add_1_r.
  - intros r v Hr. apply user_at_insert_keep; [|done]. by eapply user_at_array.
Qed.

Lemma create_made (dto : CreateUserDto.t) (s : t) :
  well_formed s →
  ∃ r s', create dto s = (Return r, s') ∧ heap s !! r = None ∧ users s' = users s ∧
          array_at (heap s') (users s') = array_at (heap s) (users s) ++ [r] ∧
          ∀ r' u, user_at (heap s) r' = Some u → user_at (heap s') r' = Some u.
Proof.
  intros Hwf. pose proof (well_formed_array s Hwf) as Harr.
  set (r := fresh (dom (heap s))).
  assert (heap s !! r = None) as Hfresh by apply (alloc_fresh (ObjArray [])).
  assert (r ≠ users s) as Hne by (intros Heq; rewrite Heq, Harr in Hfresh; done).
  eexists r, _. split; [reflexivity|]. simpl. split_and!; try done.
  - rewrite array_at_insert_array. fold r. by rewrite array_at_insert_ne.
  - intros r' v Hr. apply user_at_insert_keep.
    + fold r. unfold user_at. rewrite lookup_insert_ne by done. by rewrite Harr.
    + apply user_at_insert_keep; [|done]. unfold user_at. fold r. by rewrite Hfresh.
Qed.

(** The search in a well-formed state: no match, or a first match. *)
Lemma search_cases (i : Z) (s : t) :
  (findOne i s = (Throw (NotFoundException i), s) ∧
   (∀ dto, update i dto s = (Throw (NotFoundException i), s)) ∧
   remove i s = (Throw (NotFoundException i), s)) ∨
  (∃ n r0, first_at (has_id (heap s) i) (array_at (heap s) (users s)) n r0).
Proof.
  destruct (findIndex_cases (has_id (heap s) i) (array_at (heap s) (users s)))
    as [(Hidx & Hfind & _)|(n & r0 & _ & _ & Hfirst)]; [left|right; eauto].
  unfold findOne, update, remove. by rewrite Hidx, Hfind.
Qed.

Lemma step_users (c : UserService.call) (s : t) : users (step c s).2 = users s.
Proof.
  destruct c as [dto| |i|i dto|i]; unfold step, returning.
  - done.
  - done.
  - unfold findOne. by destruct (find _ _).
  - unfold update. destruct (_ =? -1); [done|]. by destruct (_ ≫= _).
  - unfold remove. by destruct (_ =? -1).
Qed.

(** One call from a well-formed state without a shared reference. *)
Lemma step_kept (c : UserService.call) (s : t) :
  well_formed s →
  (unshared s → unshared (step c s).2) ∧
  (∀ r u, user_at (heap s) r = Some u → user_at (heap (step c s).2) r = Some u).
Proof.
  intros Hwf. destruct c as [dto| |i|i dto|i]; unfold step, returning.
  - destruct (create_made dto s Hwf) as (r & s' & -> & Hfresh & _ & Harr & Hkeep).
    simpl. split; [|done]. unfold unshared. rewrite Harr. intros Hnd.
    apply NoDup_app. split_and!; [done| |apply NoDup_singleton].
    intros x Hx. rewrite list_elem_of_singleton. intros ->.
    by apply (unused_not_element s r Hwf).
  - done.
  - unfold findOne. by destruct (find _ _).
  - destruct (search_cases i s) as [(_ & -> & _)|(n & r0 & Hfirst)]; [done|].
    destruct (update_found i dto s n r0 Hwf Hfirst)
      as (r1 & s' & -> & Hfresh & _ & Harr & Hkeep).
    simpl. split; [|done]. unfold unshared. rewrite Harr. intros Hnd.
    eapply NoDup_replace; [done|apply Hfirst|by apply unused_not_element].
  - destruct (search_cases i s) as [(_ & _ & ->)|(n & r0 & Hfirst)]; [done|].
    destruct (remove_found i s n r0 Hwf Hfirst) as (s' & -> & _ & Harr & Hkeep).
    simpl. split; [|done]. unfold unshared. rewrite Harr. intros Hnd.
    eapply NoDup_remove_at; [done|apply Hfirst].
Qed.

(** A write through a reference that is not in the array does not show
    in the service. *)
Lemma write_outside (s : t) (r0 : ref) (a : assignment) :
  r0 ∉ array_at (heap s) (users s) → view (write r0 a s) = view s.
Proof.
  intros Hout. unfold view, records. simpl. rewrite array_at_write. f_equal.
  apply list_omap_ext, Forall_Forall2_diag, Forall_forall.
  intros r Hr. rewrite user_at_write, decide_False; [done|]. by intros <-.
Qed.

(** *** Laws *)

(** X10: the methods never write to a user object: what a reference
    to a user object leads to before a sequence of calls on a
    well-formed service is what it leads to afterwards.  (A record that
    a caller holds keeps its fields when [update] changes the record
    of that id in the service.) *)
Theorem methods_never_write_user_objects
    (cs : list UserService.call) (s : t) (r : ref) (u : User.t) :
  well_formed s → user_at (heap s) r = Some u →
  user_at (heap (exec cs s)) r = Some u.
Proof.
  revert s. induction cs as [|c cs IH]; intros s Hwf Hr; simpl; [done|].
  apply IH.
  - by apply step_view.
  - by apply step_kept.
Qed.

Lemma methods_never_write_user_objects_witness :
  user_at (heap (exec [UserService.Update 1 (UserService.rename "Jonathan")] one_user))
          2%positive
  = Some (User.mk 1 "John Doe" "john@example.com").
Proof.
  apply (methods_never_write_user_objects
           [UserService.Update 1 (UserService.rename "Jonathan")] one_user 2%positive).
  - split.
    + exists [2%positive]. vm_compute. reflexivity.
    + vm_compute. repeat econstructor.
  - vm_compute. reflexivity.
Defined.

(** X11: the field [users] always refers to the same array: after any
    sequence of calls, in any state, [findAll] returns the reference it
    returned before. *)
Theorem array_reference_is_stable (cs : list UserService.call) (s : t) :
  users (exec cs s) = users s ∧ (findAll (exec cs s)).1 = (findAll s).1.
Proof.
  assert (users (exec cs s) = users s) as Hu.
  { revert s. induction cs as [|c cs IH]; intros s; simpl; [done|].
    by rewrite IH, step_users. }
  split; [done|]. unfold findAll. simpl. by rewrite Hu.
Qed.

(** X12: in every state that a sequence of calls on a new service
    leads to, [users] refers to an array, every element of the array
    refers to a user object, and no reference occurs twice in it. *)
Theorem reached_states_well_formed_and_unshared (cs : list UserService.call) :
  well_formed (exec cs init) ∧ unshared (exec cs init).
Proof.
  assert (∀ s, well_formed s → unshared s →
               well_formed (exec cs s) ∧ unshared (exec cs s)) as Hgen.
  { induction cs as [|c cs IH]; intros s Hwf Hnd; simpl; [done|].
    apply IH; [by apply step_view | by apply step_kept]. }
  apply Hgen; [apply well_formed_init|].
  unfold unshared, init, array_at. simpl. rewrite lookup_insert_eq. constructor.
Qed.

(** X13: [update] and [remove] detach the record object they find: in
    a well-formed state without a shared reference, when [findOne(i)]
    returns the reference [r0], then after [update(i, dto)], which
    returns another reference, and after [remove(i)], [r0] is no longer
    in the array, and an assignment of the caller to a property of the
    object behind [r0] does not show in the service. *)
Theorem update_and_remove_detach (s s0 : t) (i : Z) (r0 : ref) :
  well_formed s → unshared s → findOne i s = (Return r0, s0) →
  (∀ dto, ∃ r1 s', update i dto s = (Return r1, s') ∧ r1 ≠ r0 ∧
                   (r0 ∉ array_at (heap s') (users s')) ∧
                   ∀ a, view (write r0 a s') = view s') ∧
  (∃ s', remove i s = (Return (), s') ∧
         (r0 ∉ array_at (heap s') (users s')) ∧
         ∀ a, view (write r0 a s') = view s').
Proof.
  intros Hwf Hnd Hfind.
  destruct (search_cases i s) as [(Hthrow & _)|(n & r & Hfirst)]; [congruence|].
  rewrite (findOne_found i s n r Hfirst) in Hfind. injection Hfind as -> ->.
  pose proof Hfirst as (Hn & _). split.
  - intros dto.
    destruct (update_found i dto s0 n r0 Hwf Hfirst)
      as (r1 & s' & Hu & Hfresh & _ & Harr & _).
    pose proof (unused_not_element s0 r1 Hwf Hfresh) as Hr1.
    destruct (NoDup_replace _ n r0 r1 Hnd Hn Hr1) as [_ Hout].
    rewrite <- Harr in Hout. exists r1, s'. split_and!; try done.
    + intros ->. apply Hr1. by eapply list_elem_of_lookup_2.
    + intros a. by apply write_outside.
  - destruct (remove_found i s0 n r0 Hwf Hfirst) as (s' & Hr & _ & Harr & _).
    destruct (NoDup_remove_at _ n r0 Hnd Hn) as [_ Hout].
    rewrite <- Harr in Hout. exists s'. split_and!; try done.
    intros a. by apply write_outside.
Qed.

Lemma update_and_remove_detach_witness :
  (∀ dto, ∃ r1 s', update 1 dto one_user = (Return r1, s') ∧ r1 ≠ 2%positive ∧
                   (2%positive ∉ array_at (heap s') (users s')) ∧
                   ∀ a, view (write 2%positive a s') = view s') ∧
  (∃ s', remove 1 one_user = (Return (), s') ∧
         (2%positive ∉ array_at (heap s') (users s')) ∧
         ∀ a, view (write 2%positive a s') = view s').
Proof.
  apply (update_and_remove_detach one_user one_user 1 2%positive).
  - split.
    + exists [2%positive]. vm_compute. reflexivity.
    + vm_compute. repeat econstructor.
  - vm_compute. apply NoDup_singleton.
  - vm_compute. reflexivity.
Defined.

(** X14: a caller that only calls the methods and reads what they
    return when they return sees the value semantics: after any
    sequence of calls on a new service, the records and the counter of
    the service are those that Part 1 computes, and the caller has read
    the outcomes that Part 1 computes, call by call. *)
Theorem service_shows_value_semantics (cs : list UserService.call) :
  view (exec cs init) = UserService.exec cs UserService.init ∧
  trace cs init = (λ e, (e.1, Some e.2)) <$> UserService.trace cs UserService.init.
Proof.
  destruct (exec_view cs init well_formed_init) as (_ & Hview & Htrace).
  by rewrite Hview, Htrace, view_init.
Qed.

End UserServiceRefLaws.
